(** * MpiTreeClient: the binary-tree waypoint of caffe::internode

    A shallow embedding of [src/caffe/internode/tree_cluster.cpp]
    (class [MpiTreeClient], the [USE_MPI] branch) and the properties of
    its topology queries, its request ledger and its completion poller.

    Conventions.
    - C++ integers are [Z]; where a conversion or a wrap-around can
      happen in the source it is written out.
    - [std::vector] is [list]; [push_back] appends at the end.
    - Calls that leave the class (MPI, the log, the handlers, the
      callers' completion callbacks, the io_service) are recorded, in
      program order, in the [trace] of the state.
    - Handlers and completion callbacks are code of the callers: the
      model records that they are called and with what, and covers the
      callers that do not call back into the client from there.
    - The model follows the single polling thread; the recursive mutex
      and the thread check of [poll_one] have no counterpart. *)

From Stdlib Require Import ZArith Lia Bool.
From stdpp Require Import base list.

Local Open Scope Z_scope.

(** ** Integer types of the source *)

(** [RemoteId] is declared in a header that is not part of the sources at
    hand.  It is taken as a parameter: [wrapR z] is the value of the
    mathematical integer [z] once stored in a [RemoteId] (also the
    conversion of an [int] to [RemoteId]).  The only thing assumed is that
    the type holds every value below [2^32] unchanged, which is the case
    of [size_t] and of every integer type of at least 64 bits. *)
Class RemoteIdType := {
  wrapR : Z -> Z;
  wrapR_small : forall z, 0 <= z < 2 ^ 32 -> wrapR z = z
}.

(** A 64-bit [size_t]. *)
Definition wrap_size_t (z : Z) : Z := z mod 2 ^ 64.

Definition RemoteId_size_t : RemoteIdType :=
  {| wrapR := wrap_size_t;
     wrapR_small := fun z H => Z.mod_small z (2 ^ 64)
       ltac:(change (2 ^ 32) with 4294967296 in H;
             change (2 ^ 64) with 18446744073709551616; lia) |}.

(** [INT_MAX] of a 32-bit [int]: MPI ranks and communicator sizes are
    [int]s. *)
Definition INT_MAX : Z := 2 ^ 31 - 1.

(** The value of [z] once converted to a 32-bit [int]: the counts handed
    to MPI are [int]s, and so are the members an unsigned field of a layer
    parameter is assigned to. *)
Definition to_int (z : Z) : Z := (z + 2 ^ 31) mod 2 ^ 32 - 2 ^ 31.

(** The value of [(double) z]: the nearest number with a 53-bit
    significand, ties to even.  [floor] is called on an integer
    expression, which C++ first converts to [double]. *)
Definition double_of_int (z : Z) : Z :=
  let a := Z.abs z in
  let e := Z.log2 a - 52 in
  if e <=? 0 then z
  else
    let q := a / 2 ^ e in
    let r := a mod 2 ^ e in
    let half := 2 ^ (e - 1) in
    let q' := if r <? half then q
              else if half <? r then q + 1
              else if Z.even q then q else q + 1 in
    Z.sgn z * (q' * 2 ^ e).

(** [floor] of a [double] that holds an integer. *)
Definition floor (d : Z) : Z := d.

(** ** Topology *)

Section Topology.
Context {R : RemoteIdType}.

(** [MpiTreeClient::parent], with [id()] passed as [current]. *)
Definition parent_of (current : Z) : Z :=
  if current =? 0 then 0
  else wrapR (floor (double_of_int (Z.quot (wrapR (current - 1)) 2))).

(** [MpiTreeClient::children], with [id()] passed as [parent] and
    [mpi_get_comm_size()] as [count].  The comparisons are between a
    [RemoteId] and an [int]: the [int] is converted. *)
Definition children_of (parent count : Z) : list Z :=
  if count <? 2 then []
  else
    (if wrapR (parent * 2 + 1) <? wrapR count
     then [wrapR (parent * 2 + 1)] else [])
    ++ (if wrapR (parent * 2 + 2) <? wrapR count
        then [wrapR (parent * 2 + 2)] else []).
End Topology.

(** ** Data of the client *)

(** Handlers and the callers' completion callbacks are code outside the
    class; they are told apart by a number. *)
Definition Handler := nat.
Definition SentCallback := nat.

(** What a request's [callback] is bound to:
    [boost::bind(&MpiTreeClient::received, this, _1, _2, _3)],
    [boost::bind(callback, _1)], or a copy of the [BroadcastCallback]
    whose shared state is cell [cell]. *)
Inductive RequestCallback :=
| CbReceived
| CbSent (callback : SentCallback)
| CbBroadcast (cell : nat).

(** [struct MpiRequest]; [req] is the identity of the [MPI_Request]. *)
Record MpiRequest := {
  req : nat;
  callback : RequestCallback;
  ok : bool;
  sender : Z;
  size : Z
}.

(** What [MPI_Test] and [MPI_Get_count] report for a request when it is
    tested: [flag], whether [MPI_Test] returned [MPI_SUCCESS],
    [status.MPI_SOURCE], whether [MPI_Get_count] returned [MPI_SUCCESS],
    and the count it stored. *)
Record TestOutcome := {
  flag : bool;
  test_success : bool;
  MPI_SOURCE : Z;
  count_success : bool;
  count : Z
}.

(** The transport as seen during one poll tick. *)
Definition Transport := nat -> TestOutcome.

Definition MSG_TAG : Z := 1972.

(** Calls that leave the class, in program order. *)
Inductive Event :=
| MPI_Irecv (capacity : Z) (request : nat)
| MPI_Isend (bytes : Z) (dest : Z) (tag : Z) (request : nat)
| Completed (r : MpiRequest)
    (* [it->callback(it->ok, it->size, it->sender)] for the entry [r] *)
| received_from_parent (h : Handler) (bytes : Z)
| received_from_child (h : Handler) (bytes : Z) (from : Z)
| Sent (cb : SentCallback) (result : bool)
    (* the callback given to [async_send_to_parent] *)
| BroadcastDone (cell : nat) (cb : SentCallback) (result : bool)
    (* the callback given to [async_send_to_children] *)
| LogError
| LogWarning (pending : nat)
| Post.

(** Modelled from the spec: [BroadcastCallback] (broadcast_callback.hpp
    is not among the sources).  The state shared by the copies of one
    [BroadcastCallback]: the caller's callback, the counter of child
    sends still to complete, and the accumulated success. *)
Record BroadcastCell := {
  bc_callback : SentCallback;
  bc_remaining : nat;
  bc_result : bool
}.

(** The members of [MpiTreeClient] ([buffer] by its size), the next
    fresh [MPI_Request], the broadcast cells and the trace. *)
Record State := {
  handlers : list Handler;
  requests : list MpiRequest;
  requests_to_process : list MpiRequest;
  buffer : Z;
  next_request : nat;
  cells : list BroadcastCell;
  trace : list Event
}.

Definition emit (e : Event) (st : State) : State :=
  {| handlers := handlers st; requests := requests st;
     requests_to_process := requests_to_process st; buffer := buffer st;
     next_request := next_request st; cells := cells st;
     trace := trace st ++ [e] |}.

Definition set_handlers (h : list Handler) (st : State) : State :=
  {| handlers := h; requests := requests st;
     requests_to_process := requests_to_process st; buffer := buffer st;
     next_request := next_request st; cells := cells st;
     trace := trace st |}.

Definition set_requests (l : list MpiRequest) (st : State) : State :=
  {| handlers := handlers st; requests := l;
     requests_to_process := requests_to_process st; buffer := buffer st;
     next_request := next_request st; cells := cells st;
     trace := trace st |}.

Definition set_requests_to_process (l : list MpiRequest) (st : State) : State :=
  {| handlers := handlers st; requests := requests st;
     requests_to_process := l; buffer := buffer st;
     next_request := next_request st; cells := cells st;
     trace := trace st |}.

Definition set_buffer (n : Z) (st : State) : State :=
  {| handlers := handlers st; requests := requests st;
     requests_to_process := requests_to_process st; buffer := n;
     next_request := next_request st; cells := cells st;
     trace := trace st |}.

Definition set_cells (c : list BroadcastCell) (st : State) : State :=
  {| handlers := handlers st; requests := requests st;
     requests_to_process := requests_to_process st; buffer := buffer st;
     next_request := next_request st; cells := c;
     trace := trace st |}.

(** [boost::make_shared<MPI_Request>(MPI_REQUEST_NULL)]: a request
    object that no other entry shares. *)
Definition make_request (st : State) : nat * State :=
  (next_request st,
   {| handlers := handlers st; requests := requests st;
      requests_to_process := requests_to_process st; buffer := buffer st;
      next_request := S (next_request st); cells := cells st;
      trace := trace st |}).

(** ** The fan-out aggregator *)

(** Modelled from the spec: construction of a [BroadcastCallback] around
    the caller's callback; no child send is wrapped yet. *)
Definition bc_new (cb : SentCallback) (st : State) : nat * State :=
  (length (cells st),
   set_cells (cells st ++ [{| bc_callback := cb; bc_remaining := 0;
                              bc_result := true |}]) st).

(** Modelled from the spec: one more child send shares the counter. *)
Definition bc_wrap (c : nat) (st : State) : State :=
  match cells st !! c with
  | Some cell =>
      set_cells (<[c := {| bc_callback := bc_callback cell;
                           bc_remaining := S (bc_remaining cell);
                           bc_result := bc_result cell |}]> (cells st)) st
  | None => st
  end.

(** Modelled from the spec: a child's completion decrements the counter
    and is accumulated; the caller's callback fires when the counter
    reaches zero, with the logical AND of the outcomes. *)
Definition bc_complete (c : nat) (ok : bool) (st : State) : State :=
  match cells st !! c with
  | Some cell =>
      match bc_remaining cell with
      | O => st
      | S n =>
          let result := bc_result cell && ok in
          let st' :=
            set_cells (<[c := {| bc_callback := bc_callback cell;
                                 bc_remaining := n;
                                 bc_result := result |}]> (cells st)) st in
          match n with
          | O => emit (BroadcastDone c (bc_callback cell) result) st'
          | S _ => st'
          end
      end
  | None => st
  end.

(** Modelled from the spec: with an empty child list the caller's
    callback fires immediately, with success. *)
Definition bc_submitted (c : nat) (st : State) : State :=
  match cells st !! c with
  | Some cell =>
      match bc_remaining cell with
      | O => emit (BroadcastDone c (bc_callback cell) (bc_result cell)) st
      | S _ => st
      end
  | None => st
  end.

(** ** The client *)

Section Client.
Context {R : RemoteIdType}.

(** What [mpi_get_current_proc_rank()] and [mpi_get_comm_size()]
    return; both are fixed for the run (the functions themselves are
    not among the sources). *)
Variable mpi_get_current_proc_rank : Z.
Variable mpi_get_comm_size : Z.

Definition id : Z := mpi_get_current_proc_rank.
Definition total_nodes : Z := mpi_get_comm_size.
Definition parent : Z := parent_of id.
Definition children : list Z := children_of id mpi_get_comm_size.

(** [MpiTreeClient::set_recv].  [buffer.size()] is a [size_t] and is
    converted to the [int] count of [MPI_Irecv]. *)
Definition set_recv (st : State) : State :=
  let '(h, st1) := make_request st in
  let r := {| req := h; callback := CbReceived;
              ok := false; sender := 0; size := 0 |} in
  let st2 := emit (MPI_Irecv (to_int (buffer st1)) h) st1 in
  set_requests (requests st2 ++ [r]) st2.

(** The loops of [received]: [i] runs over [0 .. handlers.size()) and
    indexes the copy [to_call].  The copy is as long as [handlers], so
    the index is always in range; the [None] branch is never taken. *)
Definition call_handlers (to_call : list Handler) (n : nat)
    (entry : Handler -> Event) (st : State) : State :=
  fold_left
    (fun s i => match to_call !! i with
                | Some h => emit (entry h) s
                | None => s
                end)
    (seq 0 n) st.

(** [MpiTreeClient::received].  [sender] is an [int] and is converted
    for the comparison with [parent()]. *)
Definition received (ok : bool) (size sender : Z) (st : State) : State :=
  let st1 :=
    if ok then
      let to_call := handlers st in
      if wrapR sender =? parent then
        call_handlers to_call (length (handlers st))
          (fun h => received_from_parent h size) st
      else
        call_handlers to_call (length (handlers st))
          (fun h => received_from_child h size sender) st
    else emit LogError st in
  set_recv st1.

(** [MpiTreeClient::is_ready]: the flag, the request as it is left, and
    the state (for the log).  [request.ok] is assigned twice; the second
    assignment, from [MPI_Get_count], is the one that stays. *)
Definition is_ready (t : Transport) (request : MpiRequest) (st : State)
    : bool * MpiRequest * State :=
  let o := t (req request) in
  if flag o then
    let ok1 := test_success o in
    let st1 := if ok1 then st else emit LogError st in
    let ok2 := count_success o in
    let st2 := if ok2 then st1 else emit LogError st1 in
    (true,
     {| req := req request; callback := callback request;
        ok := ok2; sender := MPI_SOURCE o; size := count o |},
     st2)
  else (false, request, st).

(** [std::stable_partition] with [is_ready] as predicate: the entries
    are tested once each, front to back; the ready ones come first,
    both groups in their former order. *)
Fixpoint stable_partition (t : Transport) (l : list MpiRequest)
    (st : State) : list MpiRequest * list MpiRequest * State :=
  match l with
  | [] => ([], [], st)
  | r :: l' =>
      let '(f, r', st1) := is_ready t r st in
      let '(ready, pending, st2) := stable_partition t l' st1 in
      if f then (r' :: ready, pending, st2)
      else (ready, r' :: pending, st2)
  end.

(** [it->callback(it->ok, it->size, it->sender)]. *)
Definition invoke (r : MpiRequest) (st : State) : State :=
  let st1 := emit (Completed r) st in
  match callback r with
  | CbReceived => received (ok r) (size r) (sender r) st1
  | CbSent cb => emit (Sent cb (ok r)) st1
  | CbBroadcast c => bc_complete c (ok r) st1
  end.

(** [MpiTreeClient::post]. *)
Definition post (st : State) : State := emit Post st.

(** [MpiTreeClient::poll_one], one tick. *)
Definition poll_one (t : Transport) (st : State) : State :=
  let st1 :=
    match requests st with
    | [] => st
    | _ :: _ =>
        set_requests []
          (set_requests_to_process
             (requests_to_process st ++ requests st) st)
    end in
  let '(ready, pending, st2) :=
    stable_partition t (requests_to_process st1) st1 in
  let st3 := set_requests_to_process (ready ++ pending) st2 in
  let st4 := fold_left (fun s r => invoke r s) ready st3 in
  let st5 :=
    set_requests_to_process
      (drop (length ready) (requests_to_process st4)) st4 in
  let st6 :=
    if (100 <? length (requests_to_process st5))%nat
    then emit (LogWarning (length (requests_to_process st5))) st5
    else st5 in
  post st6.

(** The constructor: empty members, then [post(daemon)]. *)
Definition init : State :=
  post {| handlers := []; requests := []; requests_to_process := [];
          buffer := 0; next_request := 0; cells := []; trace := [] |}.

(** [MpiTreeClient::set_buffer_size]. *)
Definition set_buffer_size (max_packet_size : Z) (st : State) : State :=
  set_recv (set_buffer max_packet_size st).

(** [MpiTreeClient::async_send_to_parent].  [size] is a [size_t] and is
    converted to the [int] count of [MPI_Isend]; the destination is a
    rank. *)
Definition async_send_to_parent (size : Z) (callback : SentCallback)
    (st : State) : State :=
  let parent_id := parent in
  let '(h, st1) := make_request st in
  let r := {| req := h; callback := CbSent callback;
              ok := false; sender := 0; size := 0 |} in
  let st2 := emit (MPI_Isend (to_int size) parent_id MSG_TAG h) st1 in
  set_requests (requests st2 ++ [r]) st2.

(** The body of the loop of [async_send_to_children]; [size] is
    converted as in [async_send_to_parent]. *)
Definition send_to_child (size : Z) (c : nat) (st : State) (child : Z)
    : State :=
  let '(h, st1) := make_request st in
  let r := {| req := h; callback := CbBroadcast c;
              ok := false; sender := 0; size := 0 |} in
  let st2 := bc_wrap c st1 in
  let st3 := emit (MPI_Isend (to_int size) child MSG_TAG h) st2 in
  set_requests (requests st3 ++ [r]) st3.

(** [MpiTreeClient::async_send_to_children]. *)
Definition async_send_to_children (size : Z) (callback : SentCallback)
    (st : State) : State :=
  let children_ids := children in
  let '(c, st1) := bc_new callback st in
  let st2 := fold_left (send_to_child size c) children_ids st1 in
  bc_submitted c st2.

(** [MpiTreeClient::register_receive_handler]. *)
Definition register_receive_handler (handler : Handler) (st : State)
    : State :=
  set_handlers (handlers st ++ [handler]) st.

(** What the owner of the client and the event loop do with it. *)
Inductive Call :=
| do_set_buffer_size (max_packet_size : Z)
| do_async_send_to_parent (size : Z) (callback : SentCallback)
| do_async_send_to_children (size : Z) (callback : SentCallback)
| do_register_receive_handler (handler : Handler)
| do_poll_one (t : Transport).

Definition step (st : State) (c : Call) : State :=
  match c with
  | do_set_buffer_size n => set_buffer_size n st
  | do_async_send_to_parent n cb => async_send_to_parent n cb st
  | do_async_send_to_children n cb => async_send_to_children n cb st
  | do_register_receive_handler h => register_receive_handler h st
  | do_poll_one t => poll_one t st
  end.

Definition run (st : State) (cs : list Call) : State :=
  fold_left step cs st.
End Client.

(** ** Observations on states and traces *)

(** The outstanding operations: the working set, then the staging area. *)
Definition ledger (st : State) : list MpiRequest :=
  requests_to_process st ++ requests st.

Definition is_receive (r : MpiRequest) : bool :=
  match callback r with CbReceived => true | _ => false end.

Definition outstanding_receives (st : State) : nat :=
  length (List.filter is_receive (ledger st)).

(** Whether an entry is one of the child sends of broadcast cell [c]. *)
Definition is_child_send (c : nat) (r : MpiRequest) : bool :=
  match callback r with CbBroadcast c' => Nat.eqb c' c | _ => false end.

Definition pending_children (c : nat) (l : list MpiRequest) : nat :=
  length (List.filter (is_child_send c) l).

(** The entries whose callback was invoked, in the order of invocation. *)
Definition completions (tr : list Event) : list MpiRequest :=
  flat_map (fun e => match e with Completed r => [r] | _ => [] end) tr.

(** The outcomes with which the child sends of cell [c] completed. *)
Definition child_outcomes (c : nat) (tr : list Event) : list bool :=
  flat_map (fun e => match e with
                     | Completed r => if is_child_send c r then [ok r] else []
                     | _ => []
                     end) tr.

(** The invocations of the caller's callback for broadcast cell [c]. *)
Definition broadcast_done (c : nat) (tr : list Event)
    : list (SentCallback * bool) :=
  flat_map (fun e => match e with
                     | BroadcastDone c' cb res =>
                         if Nat.eqb c' c then [(cb, res)] else []
                     | _ => []
                     end) tr.

(** The handler invocations, in order. *)
Definition handler_calls (tr : list Event) : list Event :=
  List.filter (fun e => match e with
                        | received_from_parent _ _
                        | received_from_child _ _ _ => true
                        | _ => false
                        end) tr.

(** The invocations of callbacks given to [async_send_to_parent]. *)
Definition sent_calls (tr : list Event) : list (SentCallback * bool) :=
  flat_map (fun e => match e with Sent cb res => [(cb, res)] | _ => [] end) tr.

(** What [is_ready] leaves of a request that the transport reports
    complete. *)
Definition resolve (t : Transport) (r : MpiRequest) : MpiRequest :=
  {| req := req r; callback := callback r;
     ok := count_success (t (req r));
     sender := MPI_SOURCE (t (req r));
     size := count (t (req r)) |}.

Definition reported_ready (t : Transport) (r : MpiRequest) : bool :=
  flag (t (req r)).

(** The entries of [l] found ready under [t], as [is_ready] leaves them,
    in the order of [l]; and the others. *)
Definition found_ready (t : Transport) (l : list MpiRequest)
    : list MpiRequest :=
  map (resolve t) (List.filter (reported_ready t) l).

Definition still_pending (t : Transport) (l : list MpiRequest)
    : list MpiRequest :=
  List.filter (fun r => negb (reported_ready t r)) l.

(** The errors [is_ready] logs while [l] is tested. *)
Definition test_errors (t : Transport) (l : list MpiRequest) : list Event :=
  flat_map (fun r =>
              if reported_ready t r then
                (if test_success (t (req r)) then [] else [LogError])
                ++ (if count_success (t (req r)) then [] else [LogError])
              else []) l.

Definition emits (evs : list Event) (st : State) : State :=
  {| handlers := handlers st; requests := requests st;
     requests_to_process := requests_to_process st; buffer := buffer st;
     next_request := next_request st; cells := cells st;
     trace := trace st ++ evs |}.

(** The entry [set_recv] queues for the request [h]. *)
Definition fresh_receive (h : nat) : MpiRequest :=
  {| req := h; callback := CbReceived; ok := false; sender := 0; size := 0 |}.

(** The requests for which [MPI_Irecv] was called, in order. *)
Definition posted_receives (tr : list Event) : list nat :=
  flat_map (fun e => match e with MPI_Irecv _ h => [h] | _ => [] end) tr.

(** How many receives a list of entries holds. *)
Definition receives_in (l : list MpiRequest) : nat :=
  length (List.filter is_receive l).

(** The events of the dispatch in [received]. *)
Definition dispatch_events `{RemoteIdType} (rank : Z) (ok : bool)
    (size sender : Z) (hs : list Handler) : list Event :=
  if ok then
    map (if wrapR sender =? parent rank
         then (fun h => received_from_parent h size)
         else (fun h => received_from_child h size sender)) hs
  else [LogError].

(** The sizes [poll_one] warns about, in order. *)
Definition warnings (tr : list Event) : list nat :=
  flat_map (fun e => match e with LogWarning n => [n] | _ => [] end) tr.

(** What [poll_one] logs about a working set left at [l]. *)
Definition warning_events (l : list MpiRequest) : list Event :=
  if (100 <? length l)%nat then [LogWarning (length l)] else [].

(** Outcomes of a test: not complete yet, or complete with both MPI calls
    returning [MPI_SUCCESS] or not ([from] and [bytes] are what the status
    holds). *)
Definition not_yet : TestOutcome :=
  {| flag := false; test_success := true; MPI_SOURCE := 0;
     count_success := true; count := 0 |}.

Definition complete (success : bool) (from bytes : Z) : TestOutcome :=
  {| flag := true; test_success := success; MPI_SOURCE := from;
     count_success := success; count := bytes |}.

(** The entry [async_send_to_children] queues for the request [h], bound
    to a copy of the broadcast callback of cell [c]. *)
Definition child_send (c h : nat) : MpiRequest :=
  {| req := h; callback := CbBroadcast c; ok := false; sender := 0; size := 0 |}.

(** The sends of the loop of [async_send_to_children], the first one with
    request [h]. *)
Fixpoint isend_events (size : Z) (h : nat) (ids : list Z) : list Event :=
  match ids with
  | [] => []
  | child :: ids' => MPI_Isend size child MSG_TAG h :: isend_events size (S h) ids'
  end.

(** The cells and the events [bc_complete] leaves. *)
Definition bc_cells (c : nat) (ok : bool) (cs : list BroadcastCell)
    : list BroadcastCell :=
  match cs !! c with
  | Some cell =>
      match bc_remaining cell with
      | O => cs
      | S n => <[c := {| bc_callback := bc_callback cell;
                         bc_remaining := n;
                         bc_result := bc_result cell && ok |}]> cs
      end
  | None => cs
  end.

Definition bc_events (c : nat) (ok : bool) (cs : list BroadcastCell)
    : list Event :=
  match cs !! c with
  | Some cell =>
      match bc_remaining cell with
      | 1%nat => [BroadcastDone c (bc_callback cell) (bc_result cell && ok)]
      | _ => []
      end
  | None => []
  end.

(** The bookkeeping of one [async_send_to_children] call that went to
    [n] children with the callback [cb] and the cell [c], against the
    entries [live] that still await their callback: the counter is the
    number of its child sends among them, the accumulated result is the
    conjunction of the outcomes so far, and the callback has been invoked
    once if the counter is zero and not at all otherwise. *)
Definition cell_ok (c : nat) (cb : SentCallback) (n : nat)
    (live : list MpiRequest) (cs : list BroadcastCell) (tr : list Event)
    : Prop :=
  exists cell,
    cs !! c = Some cell
    /\ bc_callback cell = cb
    /\ bc_remaining cell = pending_children c live
    /\ bc_result cell = forallb (fun b => b) (child_outcomes c tr)
    /\ broadcast_done c tr
       = match bc_remaining cell with
         | O => [(cb, bc_result cell)]
         | S _ => []
         end
    /\ (length (child_outcomes c tr) + pending_children c live = n)%nat.

(** Every child send among [live] belongs to a cell that exists, and the
    trace holds nothing about cells that do not exist yet. *)
Definition cells_fresh (live : list MpiRequest) (cs : list BroadcastCell)
    (tr : list Event) : Prop :=
  (forall r c, In r live -> callback r = CbBroadcast c -> (c < length cs)%nat)
  /\ (forall c, (length cs <= c)%nat ->
                child_outcomes c tr = [] /\ broadcast_done c tr = []).

Definition is_set_buffer_size (c : Call) : bool :=
  match c with do_set_buffer_size _ => true | _ => false end.

(** ** Further observations *)

(** [parent()] followed [k] times, from rank [r]. *)
Definition ancestor {R : RemoteIdType} (k : nat) (r : Z) : Z :=
  Nat.iter k parent_of r.

(** The invocations of [async_send_to_parent] callbacks that calling back
    the entries [l] makes. *)
Definition completed_sends (l : list MpiRequest)
    : list (SentCallback * bool) :=
  flat_map (fun r => match callback r with
                     | CbSent cb => [(cb, ok r)]
                     | _ => []
                     end) l.

(** The same, read off the ledger [l] and the transport [t]: for every
    send to the parent that [t] reports complete, the callback and what
    [MPI_Get_count] returned. *)
Definition sent_results (t : Transport) (l : list MpiRequest)
    : list (SentCallback * bool) :=
  flat_map (fun r => if reported_ready t r then
                       match callback r with
                       | CbSent cb => [(cb, count_success (t (req r)))]
                       | _ => []
                       end
                     else []) l.

(** The handlers a list of calls registers, in order. *)
Definition registered (cs : list Call) : list Handler :=
  flat_map (fun c => match c with
                     | do_register_receive_handler h => [h]
                     | _ => []
                     end) cs.

Definition is_poll_one (c : Call) : bool :=
  match c with do_poll_one _ => true | _ => false end.

(** How often the client was posted to the io_service. *)
Definition posts (tr : list Event) : nat :=
  length (List.filter (fun e => match e with Post => true | _ => false end) tr).

(** The capacities with which receives were posted, in order. *)
Definition irecv_capacities (tr : list Event) : list Z :=
  flat_map (fun e => match e with MPI_Irecv n _ => [n] | _ => [] end) tr.

(** The destinations of the sends, in order. *)
Definition isend_dests (tr : list Event) : list Z :=
  flat_map (fun e => match e with MPI_Isend _ d _ _ => [d] | _ => [] end) tr.

(** The handler calls that calling back the entries [l] makes, with the
    handlers [hs]: for every receive among them that completed with [ok],
    one call per handler. *)
Definition deliveries {R : RemoteIdType} (rank : Z) (hs : list Handler)
    (l : list MpiRequest) : list Event :=
  flat_map (fun r => match callback r with
                     | CbReceived =>
                         if ok r
                         then dispatch_events rank true (size r) (sender r) hs
                         else []
                     | _ => []
                     end) l.

(** ** MKLReLULayer::LayerSetUp: the user layout

    From [src/caffe/layers/mkl_relu_layer.cpp].  [sizes] and [strides]
    are arrays of [size_t], taken as 64 bits wide (the MKL 2017 build);
    the entries of the blob shape are [int]s and are converted.  Both
    arrays start uninitialised; the loop writes entry [d] in turn [d] and
    reads only entries written in turn [d - 1], so what the model puts
    there first ([0]) is never read. *)

Definition product (l : list Z) : Z := fold_right Z.mul 1 l.

(** The body of the loop over [d]. *)
Definition layout_step (shape : list Z) (dim : nat)
    (arrays : list Z * list Z) (d : nat) : list Z * list Z :=
  let '(sizes, strides) := arrays in
  let sizes :=
    <[d := wrap_size_t (default 0 (shape !! (dim - 1 - d)%nat))]> sizes in
  let strides :=
    <[d := if Nat.eqb d 0 then 1
           else wrap_size_t (default 0 (strides !! (d - 1)%nat)
                             * default 0 (sizes !! (d - 1)%nat))]> strides in
  (sizes, strides).

(** The arrays handed to [create_user_layout], for a blob of shape
    [shape]. *)
Definition user_layout (shape : list Z) : list Z * list Z :=
  let dim := length shape in
  fold_left (layout_step shape dim) (seq 0 dim)
    (replicate dim 0, replicate dim 0).

(** ** LRNLayer: the window

    From [src/caffe/layers/lrn_layer.cpp].  [size_] and [pre_pad_] are
    [int] members; [local_size()] is an unsigned 32-bit field of the
    layer parameter and is converted on assignment. *)

(** [LRNLayer::LayerSetUp], as far as [size_] and [pre_pad_] go: [None]
    when the [CHECK_EQ] fails.  The remainder and the quotient are those
    of C++, which truncate. *)
Definition lrn_window (local_size : Z) : option (Z * Z) :=
  let size_ := to_int local_size in
  if Z.rem size_ 2 =? 1
  then Some (size_, Z.quot (to_int (size_ - 1)) 2)
  else None.

(** [inverse_pre_pad] of [CrossChannelBackward_cpu]. *)
Definition inverse_pre_pad (size_ : Z) : Z :=
  to_int (size_ - Z.quot (to_int (size_ + 1)) 2).

(** [limit] of [CrossChannelForward_cpu]. *)
Definition forward_limit (pre_pad_ channels_ : Z) : Z :=
  if pre_pad_ <? to_int (channels_ - 1) then pre_pad_
  else to_int (channels_ - 1).

(** ** MKLReLULayer: the lazily created primitives

    From [src/caffe/layers/mkl_relu_layer.cpp].  The MKL calls are
    recorded as events; what they return is given with each pass.  A
    failed [CHECK] ends the process: the pass has no result.  A primitive
    is [NULL] or not; [dnnReLUCreateForward] and [dnnReLUCreateBackward]
    leave it non-[NULL] when they return [E_SUCCESS]. *)

(** The layout a primitive is created for: the user layout of
    [fwd_bottom_data_], or the internal layout of the private descriptor
    that came with the bottom blob. *)
Inductive ReLULayout := layout_usr | layout_int.

Inductive ReLUEvent :=
| dnnReLUCreateForward (l : ReLULayout)
| dnnReLUCreateBackward (l : ReLULayout)
| create_internal_layout
| set_prv_data_descriptor
| set_prv_diff_descriptor
| get_converted_prv
| dnnExecute (backward : bool) (primitive_is_null : bool).

(** [reluFwd_] and [reluBwd_] ([true]: not [NULL]), and the events. *)
Record ReLUState := {
  reluFwd_ : bool;
  reluBwd_ : bool;
  relu_trace : list ReLUEvent
}.

(** What a pass meets: whether the bottom blob has private data, whether
    its descriptor is of type [PRV_DESCR_MKL2017] and not [NULL], what the
    create calls and [dnnExecute] return, and [conversion_needed()] of
    [fwd_top_data_] (forward) or [bwd_bottom_diff_] (backward). *)
Record ReLUPass := {
  prv_data : bool;
  descr_is_mkl2017 : bool;
  descr_not_null : bool;
  create_forward_ok : bool;
  create_backward_ok : bool;
  conversion_needed : bool;
  execute_ok : bool
}.

Definition relu_emit (e : ReLUEvent) (st : ReLUState) : ReLUState :=
  {| reluFwd_ := reluFwd_ st; reluBwd_ := reluBwd_ st;
     relu_trace := relu_trace st ++ [e] |}.

(** [MKLReLULayer::LayerSetUp], as far as the primitives go. *)
Definition relu_LayerSetUp : ReLUState :=
  {| reluFwd_ := false; reluBwd_ := false; relu_trace := [] |}.

(** The two create calls of a first pass, each followed by its
    [CHECK_EQ(e, E_SUCCESS)]. *)
Definition relu_create (l : ReLULayout) (p : ReLUPass) (st : ReLUState)
    : option ReLUState :=
  let st1 := relu_emit (dnnReLUCreateForward l) st in
  if create_forward_ok p then
    let st2 := relu_emit (dnnReLUCreateBackward l)
                 {| reluFwd_ := true; reluBwd_ := reluBwd_ st1;
                    relu_trace := relu_trace st1 |} in
    if create_backward_ok p then
      Some {| reluFwd_ := reluFwd_ st2; reluBwd_ := true;
              relu_trace := relu_trace st2 |}
    else None
  else None.

(** [MKLReLULayer::Forward_cpu]. *)
Definition relu_Forward_cpu (p : ReLUPass) (st : ReLUState)
    : option ReLUState :=
  let created :=
    if prv_data p then
      if reluFwd_ st then Some st
      else if descr_is_mkl2017 p then
        if descr_not_null p then
          match relu_create layout_int p st with
          | Some st1 =>
              Some (relu_emit create_internal_layout
                      (relu_emit create_internal_layout
                         (relu_emit create_internal_layout st1)))
          | None => None
          end
        else None
      else None
    else
      if reluFwd_ st then Some st
      else relu_create layout_usr p st in
  match created with
  | Some st1 =>
      let st2 := if conversion_needed p
                 then relu_emit set_prv_data_descriptor st1 else st1 in
      let st3 := relu_emit (dnnExecute false (negb (reluFwd_ st2))) st2 in
      if execute_ok p then Some st3 else None
  | None => None
  end.

(** [MKLReLULayer::Backward_cpu]. *)
Definition relu_Backward_cpu (propagate_down : bool) (p : ReLUPass)
    (st : ReLUState) : option ReLUState :=
  if propagate_down then
    let st0 := relu_emit get_converted_prv st in
    let st1 := if conversion_needed p
               then relu_emit set_prv_diff_descriptor st0 else st0 in
    let st2 := relu_emit (dnnExecute true (negb (reluBwd_ st1))) st1 in
    if execute_ok p then Some st2 else None
  else Some st.

(** The passes of a run, in order. *)
Inductive ReLUCall :=
| do_Forward_cpu (p : ReLUPass)
| do_Backward_cpu (propagate_down : bool) (p : ReLUPass).

Definition relu_step (st : option ReLUState) (c : ReLUCall)
    : option ReLUState :=
  match st with
  | Some s =>
      match c with
      | do_Forward_cpu p => relu_Forward_cpu p s
      | do_Backward_cpu d p => relu_Backward_cpu d p s
      end
  | None => None
  end.

Definition relu_run (cs : list ReLUCall) : option ReLUState :=
  fold_left relu_step cs (Some relu_LayerSetUp).

(** The layouts for which forward primitives were created, in order. *)
Definition created_forward (tr : list ReLUEvent) : list ReLULayout :=
  flat_map (fun e => match e with dnnReLUCreateForward l => [l] | _ => [] end) tr.

Definition created_backward (tr : list ReLUEvent) : list ReLULayout :=
  flat_map (fun e => match e with dnnReLUCreateBackward l => [l] | _ => [] end) tr.

(** The layout the first forward pass of a run creates the primitives
    for, if there is a forward pass. *)
Definition first_forward_layout (cs : list ReLUCall) : list ReLULayout :=
  match flat_map (fun c => match c with
                           | do_Forward_cpu p => [p]
                           | _ => []
                           end) cs with
  | [] => []
  | p :: _ => [if prv_data p then layout_int else layout_usr]
  end.

(** The executions that were given a [NULL] primitive. *)
Definition null_executions (tr : list ReLUEvent) : list bool :=
  flat_map (fun e => match e with
                     | dnnExecute b true => [b]
                     | _ => []
                     end) tr.

(** The backward passes that propagate down and come before the first
    forward pass, one [true] for each. *)
Fixpoint backward_before_forward (cs : list ReLUCall) : list bool :=
  match cs with
  | [] => []
  | do_Forward_cpu _ :: _ => []
  | do_Backward_cpu d _ :: cs' =>
      (if d then [true] else []) ++ backward_before_forward cs'
  end.

(** Two passes in which every check passes: on cpu data, and on private
    data. *)
Definition pass_on_cpu_data : ReLUPass :=
  {| prv_data := false; descr_is_mkl2017 := false; descr_not_null := false;
     create_forward_ok := true; create_backward_ok := true;
     conversion_needed := false; execute_ok := true |}.

Definition pass_on_prv_data : ReLUPass :=
  {| prv_data := true; descr_is_mkl2017 := true; descr_not_null := true;
     create_forward_ok := true; create_backward_ok := true;
     conversion_needed := true; execute_ok := true |}.

(** * Properties *)

(** ** Topology *)

Example parent_of_5 : parent_of (R := RemoteId_size_t) 5 = 2.
Proof. reflexivity. Qed.

Example children_of_1_5 : children_of (R := RemoteId_size_t) 1 5 = [3; 4].
Proof. reflexivity. Qed.

Example children_of_2_6 : children_of (R := RemoteId_size_t) 2 6 = [5].
Proof. reflexivity. Qed.

(** Beyond [2^53] the conversion to [double] rounds. *)
Example double_of_int_rounds : double_of_int (2 ^ 63 - 1) = 2 ^ 63.
Proof. reflexivity. Qed.

Section TopologyFacts.
Context {R : RemoteIdType}.

Lemma double_of_int_exact z :
  Z.abs z < 2 ^ 53 -> double_of_int z = z.
Proof.
  intros H. unfold double_of_int. cbv zeta.
  destruct (Z.eq_dec z 0) as [->|Hz]; [reflexivity|].
  assert (Hlog : Z.log2 (Z.abs z) < 53).
  { apply Z.log2_lt_pow2; lia. }
  destruct (Z.leb_spec (Z.log2 (Z.abs z) - 52) 0); [reflexivity | lia].
Qed.

Lemma parent_of_rank r :
  0 <= r <= INT_MAX ->
  parent_of r = if r =? 0 then 0 else (r - 1) / 2.
Proof.
  intros Hr. unfold parent_of, floor, INT_MAX in *.
  destruct (Z.eqb_spec r 0) as [->|Hne]; [reflexivity|].
  assert (H32 : 2 ^ 32 = 4294967296) by reflexivity.
  assert (H31 : 2 ^ 31 = 2147483648) by reflexivity.
  rewrite (wrapR_small (r - 1)) by lia.
  rewrite Z.quot_div_nonneg by lia.
  assert (Hq : 0 <= (r - 1) / 2 < 2147483648).
  { split; [apply Z.div_pos; lia | apply Z.div_lt_upper_bound; lia]. }
  rewrite double_of_int_exact.
  - apply wrapR_small. lia.
  - assert (2 ^ 53 = 9007199254740992) by reflexivity. lia.
Qed.

Lemma children_of_filter r n :
  0 <= r < INT_MAX -> n <= INT_MAX ->
  children_of r n = List.filter (fun c => c <? n) [2 * r + 1; 2 * r + 2].
Proof.
  intros Hr Hn. unfold children_of, INT_MAX in *.
  assert (H32 : 2 ^ 32 = 4294967296) by reflexivity.
  assert (H31 : 2 ^ 31 = 2147483648) by reflexivity.
  cbn [List.filter].
  destruct (Z.ltb_spec n 2) as [Hlt|Hge].
  - destruct (Z.ltb_spec (2 * r + 1) n); [lia|].
    destruct (Z.ltb_spec (2 * r + 2) n); [lia|]. reflexivity.
  - rewrite (wrapR_small n), (wrapR_small (r * 2 + 1)),
      (wrapR_small (r * 2 + 2)) by lia.
    replace (r * 2 + 1) with (2 * r + 1) by lia.
    replace (r * 2 + 2) with (2 * r + 2) by lia.
    destruct (2 * r + 1 <? n), (2 * r + 2 <? n); reflexivity.
Qed.
End TopologyFacts.

(** C5.  [parent()] is a total function of the rank: [0] for rank [0],
    and the floor of [(r - 1) / 2] for every other rank [r] that an MPI
    communicator can give. *)
Theorem parent_is_floor_half `{RemoteIdType} (r : Z) :
  0 <= r <= INT_MAX ->
  parent r = if r =? 0 then 0 else (r - 1) / 2.
Proof. intros Hr. unfold parent, id. now apply parent_of_rank. Qed.

Lemma parent_is_floor_half_witness :
  0 <= 6 <= INT_MAX /\ parent (R := RemoteId_size_t) 6 = 2.
Proof.
  split; [unfold INT_MAX; lia|].
  apply (parent_is_floor_half (H := RemoteId_size_t) 6).
  unfold INT_MAX; lia.
Defined.

(** C6.  [children()] of rank [r] among [n] nodes is the ordered list of
    those of [2r+1], [2r+2] that are below [n]: at most two entries, none
    when [n < 2], and never a rank [>= n]. *)
Theorem children_are_ranks_below_count `{RemoteIdType} (r n : Z) :
  0 <= r < INT_MAX -> n <= INT_MAX ->
  children r n = List.filter (fun c => c <? n) [2 * r + 1; 2 * r + 2]
  /\ (length (children r n) <= 2)%nat
  /\ (n < 2 -> children r n = [])
  /\ Forall (fun c => c < n) (children r n).
Proof.
  intros Hr Hn. unfold children, id.
  rewrite children_of_filter by assumption.
  cbn [List.filter].
  destruct (Z.ltb_spec (2 * r + 1) n), (Z.ltb_spec (2 * r + 2) n);
    cbn [length]; repeat split; try lia; intros;
    repeat constructor; try lia.
Qed.

Lemma children_are_ranks_below_count_witness :
  children (R := RemoteId_size_t) 2 6 = [5]
  /\ children (R := RemoteId_size_t) 0 1 = [].
Proof.
  split.
  - pose proof (children_are_ranks_below_count (H := RemoteId_size_t) 2 6
                  ltac:(unfold INT_MAX; lia) ltac:(unfold INT_MAX; lia))
      as [Heq _].
    rewrite Heq. reflexivity.
  - pose proof (children_are_ranks_below_count (H := RemoteId_size_t) 0 1
                  ltac:(unfold INT_MAX; lia) ltac:(unfold INT_MAX; lia))
      as (_ & _ & Hempty & _).
    apply Hempty. lia.
Defined.

(** C3.  Among [n >= 1] nodes, every child of a rank [r < n] has [r] as
    its parent. *)
Theorem parent_of_each_child `{RemoteIdType} (n r : Z) (i : nat) (c : Z) :
  1 <= n <= INT_MAX -> 0 <= r < n ->
  children r n !! i = Some c ->
  parent c = r.
Proof.
  intros Hn Hr.
  assert (Hr' : 0 <= r < INT_MAX) by (unfold INT_MAX in *; lia).
  assert (Hn' : n <= INT_MAX) by lia.
  assert (Hbelow : forall x, x < n -> x <= INT_MAX) by (intros; lia).
  intros Hc. unfold children, parent, id in *.
  rewrite children_of_filter in Hc by assumption.
  assert (Hin : c ∈ List.filter (fun c => c <? n) [2 * r + 1; 2 * r + 2]).
  { apply list_elem_of_lookup. eauto. }
  clear Hc.
  apply list_elem_of_In, filter_In in Hin. destruct Hin as [Hin Hlt].
  apply Z.ltb_lt in Hlt.
  assert (Hc0 : 0 <= c).
  { cbn in Hin. lia. }
  rewrite parent_of_rank by (split; [assumption | now apply Hbelow]).
  destruct (Z.eqb_spec c 0) as [->|Hne].
  - cbn in Hin. lia.
  - cbn in Hin. destruct Hin as [<-|[<-|[]]].
    + replace (2 * r + 1 - 1) with (r * 2) by lia. apply Z.div_mul. lia.
    + replace (2 * r + 2 - 1) with (1 + r * 2) by lia.
      rewrite Z.div_add by lia. reflexivity.
Qed.

Lemma parent_of_each_child_witness :
  children (R := RemoteId_size_t) 1 5 !! 1%nat = Some 4
  /\ parent (R := RemoteId_size_t) 4 = 1.
Proof.
  split; [reflexivity|].
  apply (parent_of_each_child (H := RemoteId_size_t) 5 1 1 4).
  - unfold INT_MAX; lia.
  - lia.
  - reflexivity.
Defined.

(** ** Receive completion and dispatch *)

Lemma emits_nil st : emits [] st = st.
Proof. destruct st. unfold emits. cbn. now rewrite app_nil_r. Qed.

Lemma emits_cons e evs st : emits (e :: evs) st = emits evs (emit e st).
Proof. unfold emits, emit. cbn. now rewrite <- app_assoc. Qed.

Lemma emits_snoc e evs st : emits (evs ++ [e]) st = emit e (emits evs st).
Proof. unfold emits, emit. cbn. now rewrite app_assoc. Qed.

Lemma emits_app evs evs' st :
  emits (evs ++ evs') st = emits evs' (emits evs st).
Proof. unfold emits. cbn. now rewrite app_assoc. Qed.

(** The index loop over the copy of the handler list visits every handler
    once, first registered first. *)
Lemma call_handlers_from (entry : Handler -> Event) (pre l : list Handler) st :
  fold_left
    (fun s i => match (pre ++ l) !! i with
                | Some h => emit (entry h) s
                | None => s
                end)
    (seq (length pre) (length l)) st
  = emits (map entry l) st.
Proof.
  revert pre st. induction l as [|h l IH]; intros pre st.
  - cbn. now rewrite emits_nil.
  - cbn [length seq fold_left map].
    rewrite list_lookup_middle by reflexivity.
    rewrite emits_cons.
    specialize (IH (pre ++ [h]) (emit (entry h) st)).
    rewrite <- app_assoc in IH. cbn [app] in IH.
    rewrite length_app in IH. cbn [length] in IH.
    replace (length pre + 1)%nat with (S (length pre)) in IH by lia.
    exact IH.
Qed.

Lemma call_handlers_all (entry : Handler -> Event) (l : list Handler) st :
  call_handlers l (length l) entry st = emits (map entry l) st.
Proof. apply (call_handlers_from entry [] l st). Qed.

Lemma set_recv_eq st :
  set_recv st =
  {| handlers := handlers st;
     requests := requests st ++ [{| req := next_request st;
                                    callback := CbReceived;
                                    ok := false; sender := 0; size := 0 |}];
     requests_to_process := requests_to_process st;
     buffer := buffer st;
     next_request := S (next_request st);
     cells := cells st;
     trace := trace st ++ [MPI_Irecv (to_int (buffer st)) (next_request st)] |}.
Proof. reflexivity. Qed.

Lemma received_ok_eq `{RemoteIdType} rank size sender st :
  received rank true size sender st =
  set_recv
    (emits (map (if wrapR sender =? parent rank
                 then (fun h => received_from_parent h size)
                 else (fun h => received_from_child h size sender))
              (handlers st)) st).
Proof.
  unfold received.
  destruct (wrapR sender =? parent rank); now rewrite call_handlers_all.
Qed.

(** C9.  On rank 0, whose parent is rank 0 itself, [async_send_to_parent]
    still posts one [MPI_Isend], addressed to rank 0, and queues its
    request. *)
Theorem root_sends_to_itself `{RemoteIdType} (size : Z) (cb : SentCallback)
    (st : State) :
  parent 0 = id 0
  /\ trace (async_send_to_parent 0 size cb st)
     = trace st ++ [MPI_Isend (to_int size) (id 0) MSG_TAG (next_request st)]
  /\ requests (async_send_to_parent 0 size cb st)
     = requests st ++ [{| req := next_request st; callback := CbSent cb;
                          ok := false; sender := 0; size := 0 |}].
Proof. repeat split. Qed.

(** C10.  A receive that completes with [ok = false] reaches no handler:
    the failure is logged, and a new receive is posted and queued. *)
Theorem failed_receive_skips_handlers `{RemoteIdType} (rank size sender : Z)
    (st : State) :
  trace (received rank false size sender st)
  = trace st ++ [LogError; MPI_Irecv (to_int (buffer st)) (next_request st)]
  /\ handler_calls (trace (received rank false size sender st))
     = handler_calls (trace st)
  /\ requests (received rank false size sender st)
     = requests st ++ [{| req := next_request st; callback := CbReceived;
                          ok := false; sender := 0; size := 0 |}].
Proof.
  unfold received. rewrite set_recv_eq. cbn.
  rewrite <- app_assoc. repeat split.
  unfold handler_calls. rewrite List.filter_app. cbn. now rewrite app_nil_r.
Qed.

(** C8, as stated, fails: on rank 1, with handler 7 registered, a receive
    from the parent (rank 0) that completes with [ok = false] does not
    invoke the handler's parent-message entry point. *)
Lemma dispatch_not_on_every_completion :
  let st := register_receive_handler 7%nat init in
  parent (R := RemoteId_size_t) 1 = 0
  /\ handlers st = [7%nat]
  /\ handler_calls (trace st) = []
  /\ handler_calls (trace (received (R := RemoteId_size_t) 1 false 3 0 st))
     <> [received_from_parent 7%nat 3].
Proof. cbv zeta. repeat split. vm_compute. discriminate. Qed.

(** C8, amended.  On a receive completion with [ok = true], dispatch
    compares the sender with [parent()]: on equality every registered
    handler gets [received_from_parent] with the size, otherwise every
    registered handler gets [received_from_child] with the size and the
    sender; in both cases in registration order, before the next receive
    is posted. *)
Theorem dispatch_on_successful_receive `{RemoteIdType} (rank size sender : Z)
    (st : State) :
  trace (received rank true size sender st)
  = trace st
    ++ map (if wrapR sender =? parent rank
            then (fun h => received_from_parent h size)
            else (fun h => received_from_child h size sender))
         (handlers st)
    ++ [MPI_Irecv (to_int (buffer st)) (next_request st)]
  /\ handlers (received rank true size sender st) = handlers st.
Proof.
  rewrite received_ok_eq, set_recv_eq. cbn.
  rewrite <- app_assoc. split; reflexivity.
Qed.

(** ** The completion poller *)

Lemma is_ready_eq (t : Transport) r st :
  is_ready t r st =
  (reported_ready t r,
   if reported_ready t r then resolve t r else r,
   emits (test_errors t [r]) st).
Proof.
  unfold is_ready, test_errors, resolve. cbn [flat_map].
  rewrite app_nil_r. unfold reported_ready.
  destruct (flag (t (req r))).
  - destruct (test_success (t (req r))), (count_success (t (req r)));
      cbn [app]; rewrite ?emits_cons, ?emits_nil; reflexivity.
  - now rewrite emits_nil.
Qed.

(** [stable_partition] splits the working set into the entries reported
    ready and the others, each group in its former order. *)
Lemma stable_partition_eq (t : Transport) l st :
  stable_partition t l st =
  (found_ready t l, still_pending t l, emits (test_errors t l) st).
Proof.
  revert st. induction l as [|r l IH]; intros st.
  - cbn. now rewrite emits_nil.
  - cbn [stable_partition]. rewrite is_ready_eq, IH.
    replace (test_errors t (r :: l))
      with (test_errors t [r] ++ test_errors t l).
    2:{ unfold test_errors. cbn [flat_map]. now rewrite app_nil_r. }
    rewrite emits_app.
    unfold found_ready, still_pending. cbn [List.filter map].
    destruct (reported_ready t r); reflexivity.
Qed.

Lemma completions_app tr tr' :
  completions (tr ++ tr') = completions tr ++ completions tr'.
Proof. apply flat_map_app. Qed.

Lemma posted_receives_app tr tr' :
  posted_receives (tr ++ tr') = posted_receives tr ++ posted_receives tr'.
Proof. apply flat_map_app. Qed.

Lemma received_eq `{RemoteIdType} rank ok size sender st :
  received rank ok size sender st
  = set_recv (emits (dispatch_events rank ok size sender (handlers st)) st).
Proof.
  destruct ok.
  - apply received_ok_eq.
  - unfold received, dispatch_events. now rewrite emits_cons, emits_nil.
Qed.

(** An observation that ignores handler calls and log lines sees nothing
    of the dispatch. *)
Lemma flat_map_dispatch `{RemoteIdType} {A} (f : Event -> list A)
    rank ok size sender hs :
  (forall h b, f (received_from_parent h b) = []) ->
  (forall h b s, f (received_from_child h b s) = []) ->
  f LogError = [] ->
  flat_map f (dispatch_events rank ok size sender hs) = [].
Proof.
  intros Hp Hc Hl. unfold dispatch_events. destruct ok.
  - destruct (wrapR sender =? parent rank);
      induction hs as [|h hs IH]; cbn; rewrite ?Hp, ?Hc; auto.
  - cbn. now rewrite Hl.
Qed.

Ltac bc_cases c st :=
  unfold bc_complete;
  destruct (cells st !! c) as [?cell|];
  [ match goal with cell : BroadcastCell |- _ =>
      destruct (bc_remaining cell) as [|[|?n]]
    end | ].

Lemma invoke_requests_to_process `{RemoteIdType} rank r st :
  requests_to_process (invoke rank r st) = requests_to_process st.
Proof.
  unfold invoke. destruct (callback r) as [|cb|c].
  - now rewrite received_eq.
  - reflexivity.
  - bc_cases c (emit (Completed r) st); reflexivity.
Qed.

Lemma invoke_handlers `{RemoteIdType} rank r st :
  handlers (invoke rank r st) = handlers st.
Proof.
  unfold invoke. destruct (callback r) as [|cb|c].
  - now rewrite received_eq.
  - reflexivity.
  - bc_cases c (emit (Completed r) st); reflexivity.
Qed.

Lemma invoke_buffer `{RemoteIdType} rank r st :
  buffer (invoke rank r st) = buffer st.
Proof.
  unfold invoke. destruct (callback r) as [|cb|c].
  - now rewrite received_eq.
  - reflexivity.
  - bc_cases c (emit (Completed r) st); reflexivity.
Qed.

Lemma invoke_next_request `{RemoteIdType} rank r st :
  next_request (invoke rank r st)
  = (next_request st + receives_in [r])%nat.
Proof.
  unfold invoke, receives_in, is_receive. cbn [List.filter].
  destruct (callback r) as [|cb|c]; cbn [length].
  - rewrite received_eq. cbn. lia.
  - cbn. lia.
  - bc_cases c (emit (Completed r) st); cbn; lia.
Qed.

Lemma invoke_requests `{RemoteIdType} rank r st :
  requests (invoke rank r st)
  = requests st
    ++ map fresh_receive (seq (next_request st) (receives_in [r])).
Proof.
  unfold invoke, receives_in, is_receive. cbn [List.filter].
  destruct (callback r) as [|cb|c]; cbn [length seq map].
  - rewrite received_eq. reflexivity.
  - cbn. now rewrite app_nil_r.
  - bc_cases c (emit (Completed r) st); cbn; now rewrite app_nil_r.
Qed.

Lemma invoke_completions `{RemoteIdType} rank r st :
  completions (trace (invoke rank r st)) = completions (trace st) ++ [r].
Proof.
  unfold invoke. destruct (callback r) as [|cb|c].
  - rewrite received_eq. cbn. rewrite !completions_app.
    unfold completions at 3.
    rewrite flat_map_dispatch by reflexivity.
    cbn. now rewrite !app_nil_r.
  - cbn. rewrite !completions_app. cbn. now rewrite !app_nil_r.
  - bc_cases c (emit (Completed r) st); cbn; rewrite !completions_app;
      cbn; now rewrite ?app_nil_r.
Qed.

Lemma invoke_posted_receives `{RemoteIdType} rank r st :
  posted_receives (trace (invoke rank r st))
  = posted_receives (trace st) ++ seq (next_request st) (receives_in [r]).
Proof.
  unfold invoke, receives_in, is_receive. cbn [List.filter].
  destruct (callback r) as [|cb|c]; cbn [length seq].
  - rewrite received_eq. cbn. rewrite !posted_receives_app.
    unfold posted_receives at 3.
    rewrite flat_map_dispatch by reflexivity.
    cbn. now rewrite !app_nil_r.
  - cbn. rewrite !posted_receives_app. cbn. now rewrite !app_nil_r.
  - bc_cases c (emit (Completed r) st); cbn; rewrite !posted_receives_app;
      cbn; now rewrite ?app_nil_r.
Qed.

Lemma receives_in_cons r l :
  receives_in (r :: l) = (receives_in [r] + receives_in l)%nat.
Proof. unfold receives_in. cbn. destruct (is_receive r); reflexivity. Qed.

Lemma receives_in_app l l' :
  receives_in (l ++ l') = (receives_in l + receives_in l')%nat.
Proof. unfold receives_in. now rewrite List.filter_app, length_app. Qed.

(** The callback loop of [poll_one]: the working set, the handlers and the
    buffer are left alone; every completed receive stages one fresh
    receive; the completions are the entries, in order. *)
Lemma callbacks_effect `{RemoteIdType} rank l st :
  let st' := fold_left (fun s r => invoke rank r s) l st in
  requests_to_process st' = requests_to_process st
  /\ handlers st' = handlers st
  /\ buffer st' = buffer st
  /\ next_request st' = (next_request st + receives_in l)%nat
  /\ requests st'
     = requests st ++ map fresh_receive (seq (next_request st) (receives_in l))
  /\ completions (trace st') = completions (trace st) ++ l
  /\ posted_receives (trace st')
     = posted_receives (trace st) ++ seq (next_request st) (receives_in l).
Proof.
  revert st. induction l as [|r l IH]; intros st; cbn zeta.
  - cbn. rewrite !app_nil_r. repeat split. unfold receives_in. cbn. lia.
  - cbn [fold_left].
    destruct (IH (invoke rank r st)) as (H1 & H2 & H3 & H4 & H5 & H6 & H7).
    rewrite H1, H2, H3, H4, H5, H6, H7.
    rewrite invoke_requests_to_process, invoke_handlers, invoke_buffer,
      invoke_next_request, invoke_requests, invoke_completions,
      invoke_posted_receives.
    rewrite (receives_in_cons r l), seq_app, map_app, <- !app_assoc.
    repeat split. lia.
Qed.

Lemma test_errors_no_completion t l : completions (test_errors t l) = [].
Proof.
  induction l as [|r l IH]; [reflexivity|].
  unfold test_errors in *. cbn [flat_map]. rewrite completions_app, IH.
  destruct (reported_ready t r); [|reflexivity].
  destruct (test_success (t (req r))), (count_success (t (req r)));
    reflexivity.
Qed.

Lemma test_errors_no_receive t l : posted_receives (test_errors t l) = [].
Proof.
  induction l as [|r l IH]; [reflexivity|].
  unfold test_errors in *. cbn [flat_map]. rewrite posted_receives_app, IH.
  destruct (reported_ready t r); [|reflexivity].
  destruct (test_success (t (req r))), (count_success (t (req r)));
    reflexivity.
Qed.

(** The state in which [poll_one] starts to test: the staged entries are
    behind the working set, and the staging area is empty. *)
Lemma poll_one_merge st :
  match requests st with
  | [] => st
  | _ :: _ =>
      set_requests []
        (set_requests_to_process (requests_to_process st ++ requests st) st)
  end
  = set_requests [] (set_requests_to_process (ledger st) st).
Proof.
  unfold ledger. destruct st as [hs rq rtp b n cs tr]. cbn.
  destruct rq; [|reflexivity].
  unfold set_requests, set_requests_to_process. cbn.
  now rewrite app_nil_r.
Qed.

(** One tick, member by member. *)
Lemma poll_one_effect `{RemoteIdType} rank t st :
  let st' := poll_one rank t st in
  let k := receives_in (found_ready t (ledger st)) in
  requests_to_process st' = still_pending t (ledger st)
  /\ requests st' = map fresh_receive (seq (next_request st) k)
  /\ next_request st' = (next_request st + k)%nat
  /\ handlers st' = handlers st
  /\ buffer st' = buffer st
  /\ completions (trace st')
     = completions (trace st) ++ found_ready t (ledger st)
  /\ posted_receives (trace st')
     = posted_receives (trace st) ++ seq (next_request st) k.
Proof.
  cbn zeta. unfold poll_one. rewrite poll_one_merge.
  cbn [requests_to_process set_requests set_requests_to_process].
  rewrite stable_partition_eq.
  match goal with
  | |- context [fold_left ?f ?l ?s] =>
      destruct (callbacks_effect rank l s) as (H1 & H2 & H3 & H4 & H5 & H6 & H7);
      cbn zeta in H1, H2, H3, H4, H5, H6, H7;
      set (st4 := fold_left f l s) in *
  end.
  cbn in H1, H2, H3, H4, H5, H6, H7.
  rewrite completions_app, test_errors_no_completion, app_nil_r in H6.
  rewrite posted_receives_app, test_errors_no_receive, app_nil_r in H7.
  assert (Hdrop : drop (length (found_ready t (ledger st)))
                    (requests_to_process st4) = still_pending t (ledger st)).
  { rewrite H1. apply drop_app_length. }
  rewrite Hdrop.
  match goal with
  | |- context [if ?b then _ else _] => destruct b
  end;
    cbn; rewrite ?completions_app, ?posted_receives_app; cbn;
    rewrite ?app_nil_r; repeat split; assumption.
Qed.

(** [poll_one] in one piece: merge, test, call back, erase, warn, post. *)
Lemma poll_one_eq `{RemoteIdType} rank t st :
  poll_one rank t st
  = emits (warning_events (still_pending t (ledger st)) ++ [Post])
      (set_requests_to_process (still_pending t (ledger st))
         (fold_left (fun s r => invoke rank r s) (found_ready t (ledger st))
            (set_requests_to_process
               (found_ready t (ledger st) ++ still_pending t (ledger st))
               (emits (test_errors t (ledger st))
                  (set_requests []
                     (set_requests_to_process (ledger st) st)))))).
Proof.
  unfold poll_one. rewrite poll_one_merge.
  cbn [requests_to_process set_requests set_requests_to_process].
  rewrite stable_partition_eq.
  match goal with
  | |- context [fold_left ?f ?l ?s] =>
      destruct (callbacks_effect rank l s) as (H1 & _);
      cbn zeta in H1; set (st4 := fold_left f l s) in *
  end.
  cbn in H1. rewrite H1, drop_app_length.
  cbn [requests_to_process set_requests_to_process].
  unfold warning_events, post.
  destruct (100 <? length (still_pending t (ledger st)))%nat; cbn [app].
  - now rewrite emits_cons, emits_cons, emits_nil.
  - now rewrite emits_cons, emits_nil.
Qed.

Lemma warnings_app tr tr' : warnings (tr ++ tr') = warnings tr ++ warnings tr'.
Proof. apply flat_map_app. Qed.

Lemma test_errors_no_warning t l : warnings (test_errors t l) = [].
Proof.
  induction l as [|r l IH]; [reflexivity|].
  unfold test_errors in *. cbn [flat_map]. rewrite warnings_app, IH.
  destruct (reported_ready t r); [|reflexivity].
  destruct (test_success (t (req r))), (count_success (t (req r)));
    reflexivity.
Qed.

Lemma invoke_warnings `{RemoteIdType} rank r st :
  warnings (trace (invoke rank r st)) = warnings (trace st).
Proof.
  unfold invoke. destruct (callback r) as [|cb|c].
  - rewrite received_eq. cbn. rewrite !warnings_app.
    unfold warnings at 3.
    rewrite flat_map_dispatch by reflexivity.
    cbn. now rewrite !app_nil_r.
  - cbn. rewrite !warnings_app. cbn. now rewrite !app_nil_r.
  - bc_cases c (emit (Completed r) st); cbn; rewrite !warnings_app;
      cbn; now rewrite ?app_nil_r.
Qed.

Lemma callbacks_warnings `{RemoteIdType} rank l st :
  warnings (trace (fold_left (fun s r => invoke rank r s) l st))
  = warnings (trace st).
Proof.
  revert st. induction l as [|r l IH]; intros st; [reflexivity|].
  cbn [fold_left]. now rewrite IH, invoke_warnings.
Qed.

Lemma poll_one_warnings `{RemoteIdType} rank t st :
  warnings (trace (poll_one rank t st))
  = warnings (trace st)
    ++ (if (100 <? length (still_pending t (ledger st)))%nat
        then [length (still_pending t (ledger st))] else []).
Proof.
  rewrite poll_one_eq. cbn [trace emits set_requests_to_process].
  rewrite warnings_app, callbacks_warnings.
  cbn [trace emits set_requests_to_process set_requests].
  rewrite !warnings_app, test_errors_no_warning, app_nil_r.
  f_equal. unfold warning_events.
  destruct (100 <? length (still_pending t (ledger st)))%nat; reflexivity.
Qed.

Lemma found_ready_length t l :
  (length (found_ready t l) + length (still_pending t l) = length l)%nat.
Proof.
  unfold found_ready, still_pending. rewrite length_map.
  induction l as [|r l IH]; [reflexivity|].
  cbn. destruct (reported_ready t r); cbn; lia.
Qed.

Lemma still_pending_all t l :
  (forall r, In r l -> reported_ready t r = false) -> still_pending t l = l.
Proof.
  intros Hall. unfold still_pending. induction l as [|r l IH]; [reflexivity|].
  cbn. rewrite (Hall r) by now left. cbn. f_equal.
  apply IH. intros r' Hr'. apply Hall. now right.
Qed.

Lemma found_ready_none t l :
  (forall r, In r l -> reported_ready t r = false) -> found_ready t l = [].
Proof.
  intros Hall. unfold found_ready. induction l as [|r l IH]; [reflexivity|].
  cbn. rewrite (Hall r) by now left.
  apply IH. intros r' Hr'. apply Hall. now right.
Qed.

Lemma found_ready_all t l :
  (forall r, In r l -> reported_ready t r = true) ->
  found_ready t l = map (resolve t) l /\ still_pending t l = [].
Proof.
  intros Hall. unfold found_ready, still_pending.
  induction l as [|r l IH]; [now split|].
  cbn. rewrite (Hall r) by now left. cbn.
  destruct IH as [IH1 IH2]. { intros r' Hr'. apply Hall. now right. }
  now rewrite IH1, IH2.
Qed.

(** C4.  In one tick the callbacks are invoked for exactly the entries
    found ready, in the order in which they were found ready (the order
    of the working set); over several ticks two sends can complete in
    the reverse of the order of their submission. *)
Theorem callbacks_fire_in_ready_order `{RemoteIdType} (rank : Z) :
  (forall t st,
      completions (trace (poll_one rank t st))
      = completions (trace st) ++ found_ready t (ledger st))
  /\ (exists t1 t2 : Transport,
         let st := async_send_to_parent rank 4 2%nat
                     (async_send_to_parent rank 4 1%nat init) in
         map req (requests st) = [0%nat; 1%nat]
         /\ sent_calls (trace (poll_one rank t2 (poll_one rank t1 st)))
            = [(2%nat, true); (1%nat, true)]).
Proof.
  split.
  - intros t st. apply (poll_one_effect rank t st).
  - exists (fun h => if Nat.eqb h 1 then complete true 0 0 else not_yet),
           (fun _ => complete true 0 0).
    split; reflexivity.
Qed.

(** C7.  A tick drops nothing: every entry of the ledger is either called
    back or left in the working set, and a warning is logged exactly when
    more than 100 entries are left.  With 101 entries staged before the
    first tick and none of them complete, the tick logs the warning and
    keeps all 101 in the working set; a later tick in which the transport
    reports them complete calls back all 101 and empties the working
    set. *)
Theorem backpressure_warns_and_keeps_entries `{RemoteIdType} (rank : Z) :
  (forall t st,
      requests_to_process (poll_one rank t st) = still_pending t (ledger st)
      /\ completions (trace (poll_one rank t st))
         = completions (trace st) ++ found_ready t (ledger st)
      /\ (length (found_ready t (ledger st))
          + length (still_pending t (ledger st)) = length (ledger st))%nat
      /\ warnings (trace (poll_one rank t st))
         = warnings (trace st)
           ++ (if (100 <? length (still_pending t (ledger st)))%nat
               then [length (still_pending t (ledger st))] else []))
  /\ (forall t t' st,
         requests_to_process st = [] ->
         length (requests st) = 101%nat ->
         (forall r, In r (requests st) -> reported_ready t r = false) ->
         (forall r, In r (requests st) -> reported_ready t' r = true) ->
         let st1 := poll_one rank t st in
         let st2 := poll_one rank t' st1 in
         warnings (trace st1) = warnings (trace st) ++ [101%nat]
         /\ requests_to_process st1 = requests st
         /\ completions (trace st1) = completions (trace st)
         /\ requests_to_process st2 = []
         /\ completions (trace st2)
            = completions (trace st) ++ map (resolve t') (requests st)).
Proof.
  split.
  - intros t st.
    destruct (poll_one_effect rank t st) as (H1 & _ & _ & _ & _ & H6 & _).
    repeat split; try assumption.
    + apply found_ready_length.
    + apply poll_one_warnings.
  - intros t t' st Hrtp Hlen Hnone Hall st1 st2.
    assert (Hledger : ledger st = requests st).
    { unfold ledger. now rewrite Hrtp. }
    destruct (poll_one_effect rank t st) as (H1 & H2 & _ & _ & _ & H6 & _).
    cbn zeta in *. fold st1 in H1, H2, H6.
    rewrite Hledger in *.
    rewrite still_pending_all in H1 by assumption.
    rewrite found_ready_none in H2, H6 by assumption.
    rewrite app_nil_r in H6. cbn in H2.
    assert (Hledger1 : ledger st1 = requests st).
    { unfold ledger. now rewrite H1, H2, app_nil_r. }
    destruct (poll_one_effect rank t' st1) as (K1 & _ & _ & _ & _ & K6 & _).
    cbn zeta in *. fold st2 in K1, K6.
    rewrite Hledger1 in *.
    destruct (found_ready_all t' (requests st) Hall) as [Hf Hp].
    rewrite Hp in K1. rewrite Hf, H6 in K6.
    repeat split; try assumption.
    unfold st1. rewrite poll_one_warnings, Hledger.
    rewrite still_pending_all by assumption.
    now rewrite Hlen.
Qed.

Lemma backpressure_warns_and_keeps_entries_witness :
  let st := Nat.iter 101 (async_send_to_parent (R := RemoteId_size_t) 1 4 0%nat)
              init in
  let st1 := poll_one (R := RemoteId_size_t) 1 (fun _ => not_yet) st in
  let st2 := poll_one (R := RemoteId_size_t) 1 (fun _ => complete true 0 4) st1 in
  warnings (trace st1) = warnings (trace st) ++ [101%nat]
  /\ requests_to_process st1 = requests st
  /\ completions (trace st1) = completions (trace st)
  /\ requests_to_process st2 = []
  /\ completions (trace st2)
     = completions (trace st)
       ++ map (resolve (fun _ => complete true 0 4)) (requests st).
Proof.
  apply (proj2 (backpressure_warns_and_keeps_entries
                  (H := RemoteId_size_t) 1)
           (fun _ => not_yet) (fun _ => complete true 0 4)
           (Nat.iter 101 (async_send_to_parent (R := RemoteId_size_t) 1 4 0%nat)
              init)).
  - reflexivity.
  - vm_compute. reflexivity.
  - intros r _. reflexivity.
  - intros r _. reflexivity.
Defined.

(** ** Submission *)

Lemma send_loop_eq `{RemoteIdType} size c ids st cell :
  cells st !! c = Some cell ->
  fold_left (send_to_child size c) ids st
  = {| handlers := handlers st;
       requests := requests st
                   ++ map (child_send c) (seq (next_request st) (length ids));
       requests_to_process := requests_to_process st;
       buffer := buffer st;
       next_request := (next_request st + length ids)%nat;
       cells := <[c := {| bc_callback := bc_callback cell;
                          bc_remaining := (length ids + bc_remaining cell)%nat;
                          bc_result := bc_result cell |}]> (cells st);
       trace := trace st ++ isend_events (to_int size) (next_request st) ids |}.
Proof.
  revert st cell. induction ids as [|child ids IH]; intros st cell Hc.
  - cbn. destruct st as [hs rq rtp b n cs tr]. cbn in *.
    rewrite !app_nil_r, Nat.add_0_r. f_equal.
    symmetry. apply list_insert_id. now destruct cell.
  - cbn [fold_left]. unfold send_to_child at 2. cbn [make_request].
    unfold bc_wrap. cbn [cells]. rewrite Hc.
    erewrite IH.
    2:{ cbn. apply list_lookup_insert_eq. eapply lookup_lt_Some, Hc. }
    cbn. rewrite list_insert_insert_eq, <- !app_assoc. cbn [app].
    f_equal; try lia. do 2 f_equal. lia.
Qed.

Lemma async_send_to_children_eq `{RemoteIdType} rank nodes size cb st :
  async_send_to_children rank nodes size cb st
  = let ids := children rank nodes in
    let c := length (cells st) in
    {| handlers := handlers st;
       requests := requests st
                   ++ map (child_send c) (seq (next_request st) (length ids));
       requests_to_process := requests_to_process st;
       buffer := buffer st;
       next_request := (next_request st + length ids)%nat;
       cells := cells st ++ [{| bc_callback := cb;
                                bc_remaining := length ids;
                                bc_result := true |}];
       trace := trace st ++ isend_events (to_int size) (next_request st) ids
                ++ match ids with
                   | [] => [BroadcastDone c cb true]
                   | _ :: _ => []
                   end |}.
Proof.
  unfold async_send_to_children, bc_new. cbv zeta.
  erewrite send_loop_eq.
  2:{ cbn. apply list_lookup_middle. reflexivity. }
  cbn. unfold bc_submitted. cbn [cells].
  replace (<[length (cells st) := _]> (cells st ++ [_]))
    with (cells st ++ [{| bc_callback := cb;
                          bc_remaining := (length (children rank nodes) + 0)%nat;
                          bc_result := true |}]).
  2:{ symmetry.
      rewrite <- (Nat.add_0_r (length (cells st))) at 1.
      now rewrite insert_app_r. }
  rewrite list_lookup_middle by reflexivity. cbn.
  rewrite Nat.add_0_r.
  destruct (children rank nodes) as [|child ids]; cbn.
  - unfold emit. cbn. now rewrite !app_nil_r.
  - now rewrite !app_nil_r.
Qed.

(** ** The standing receive *)

Lemma receives_in_split t l :
  (receives_in (found_ready t l) + receives_in (still_pending t l)
   = receives_in l)%nat.
Proof.
  unfold found_ready, still_pending.
  induction l as [|r l IH]; [reflexivity|].
  cbn [List.filter]. destruct (reported_ready t r); cbn [negb map].
  - rewrite (receives_in_cons (resolve t r)), (receives_in_cons r).
    assert (Hres : receives_in [resolve t r] = receives_in [r]).
    { unfold receives_in, is_receive. cbn. now destruct (callback r). }
    lia.
  - rewrite (receives_in_cons r (List.filter _ l)), (receives_in_cons r l).
    lia.
Qed.

Lemma receives_in_fresh l : receives_in (map fresh_receive l) = length l.
Proof.
  unfold receives_in. induction l as [|h l IH]; [reflexivity|].
  cbn. now rewrite IH.
Qed.

Lemma receives_in_child_sends c l : receives_in (map (child_send c) l) = 0%nat.
Proof.
  unfold receives_in. induction l as [|h l IH]; [reflexivity|]. exact IH.
Qed.

(** A tick neither loses nor duplicates a receive: the ones that completed
    are replaced, one for one, by fresh ones in the staging area. *)
Lemma poll_one_outstanding `{RemoteIdType} rank t st :
  outstanding_receives (poll_one rank t st) = outstanding_receives st.
Proof.
  unfold outstanding_receives. fold (receives_in (ledger (poll_one rank t st))).
  fold (receives_in (ledger st)). unfold ledger at 1.
  destruct (poll_one_effect rank t st) as (H1 & H2 & _).
  cbn zeta in *. rewrite H1, H2, receives_in_app, receives_in_fresh.
  rewrite length_seq. rewrite <- (receives_in_split t (ledger st)). lia.
Qed.

Lemma step_outstanding `{RemoteIdType} rank nodes st c :
  is_set_buffer_size c = false ->
  outstanding_receives (step rank nodes st c) = outstanding_receives st.
Proof.
  intros Hc. destruct c as [n|n cb|n cb|h|t]; try discriminate Hc; cbn [step].
  - unfold outstanding_receives, ledger. cbn.
    rewrite !List.filter_app. cbn. now rewrite app_nil_r.
  - rewrite async_send_to_children_eq. cbn zeta.
    unfold outstanding_receives, ledger. cbn [requests requests_to_process].
    rewrite !List.filter_app, !length_app.
    fold (receives_in (map (child_send (length (cells st)))
                         (seq (next_request st) (length (children rank nodes))))).
    rewrite receives_in_child_sends. lia.
  - reflexivity.
  - apply poll_one_outstanding.
Qed.

Lemma run_outstanding `{RemoteIdType} rank nodes cs st :
  forallb (fun c => negb (is_set_buffer_size c)) cs = true ->
  outstanding_receives (run rank nodes st cs) = outstanding_receives st.
Proof.
  revert st. induction cs as [|c cs IH]; intros st Hcs; [reflexivity|].
  cbn in Hcs. apply andb_prop in Hcs. destruct Hcs as [Hc Hcs].
  unfold run. cbn [fold_left]. fold (run rank nodes (step rank nodes st c) cs).
  rewrite IH by assumption. apply step_outstanding.
  now destruct (is_set_buffer_size c).
Qed.

(** C1, as stated, fails: the constructor posts [poll_one] without
    arming a receive, so between the first ticks, before
    [set_buffer_size] is called, the ledger holds no receive; and a
    second [set_buffer_size] leaves two. *)
Lemma receive_not_always_outstanding :
  outstanding_receives
    (run (R := RemoteId_size_t) 0 3 init [do_poll_one (fun _ => not_yet)])
  = 0%nat
  /\ outstanding_receives
       (run (R := RemoteId_size_t) 0 3 init
          [do_poll_one (fun _ => not_yet); do_poll_one (fun _ => not_yet)])
     = 0%nat
  /\ outstanding_receives
       (run (R := RemoteId_size_t) 0 3 init
          [do_set_buffer_size 64; do_set_buffer_size 64;
           do_poll_one (fun _ => not_yet)])
     = 2%nat.
Proof. repeat split. Qed.

(** C1, amended.  Whatever its outcome, a completed receive ends with
    [set_recv]: a fresh receive is posted and staged before [poll_one]
    returns.  A tick therefore replaces every completed receive by a
    fresh one and leaves their number as it is, and once
    [set_buffer_size] has armed the first receive (it is called once; the
    constructor arms none) the ledger holds exactly one receive after
    every later call, hence between any two ticks. *)
Theorem receive_always_rearmed `{RemoteIdType} (rank nodes : Z) :
  (forall ok size sender st,
      requests (received rank ok size sender st)
      = requests st ++ [fresh_receive (next_request st)]
      /\ posted_receives (trace (received rank ok size sender st))
         = posted_receives (trace st) ++ [next_request st])
  /\ (forall t st,
         let k := receives_in (found_ready t (ledger st)) in
         outstanding_receives (poll_one rank t st) = outstanding_receives st
         /\ requests_to_process (poll_one rank t st)
            = still_pending t (ledger st)
         /\ requests (poll_one rank t st)
            = map fresh_receive (seq (next_request st) k)
         /\ posted_receives (trace (poll_one rank t st))
            = posted_receives (trace st) ++ seq (next_request st) k)
  /\ (forall before n after,
         forallb (fun c => negb (is_set_buffer_size c)) before = true ->
         forallb (fun c => negb (is_set_buffer_size c)) after = true ->
         outstanding_receives
           (run rank nodes
              (set_buffer_size n (run rank nodes init before)) after)
         = 1%nat).
Proof.
  split; [|split].
  - intros ok size sender st. rewrite received_eq. cbn.
    split; [reflexivity|].
    rewrite !posted_receives_app. unfold posted_receives at 2.
    rewrite flat_map_dispatch by reflexivity. cbn. now rewrite app_nil_r.
  - intros t st.
    destruct (poll_one_effect rank t st) as (H1 & H2 & _ & _ & _ & _ & H7).
    cbn zeta in *. repeat split; try assumption.
    apply poll_one_outstanding.
  - intros before n after Hbefore Hafter.
    rewrite run_outstanding by assumption.
    change (set_buffer_size n (run rank nodes init before))
      with (step rank nodes (run rank nodes init before)
              (do_set_buffer_size n)).
    pose proof (run_outstanding rank nodes before init Hbefore) as H0.
    unfold outstanding_receives, ledger in *. cbn in *.
    rewrite !List.filter_app, !length_app in *. cbn. lia.
Qed.

Lemma receive_always_rearmed_witness :
  outstanding_receives
    (run (R := RemoteId_size_t) 0 3
       (set_buffer_size 64
          (run (R := RemoteId_size_t) 0 3 init
             [do_poll_one (fun _ => not_yet); do_register_receive_handler 5%nat]))
       [do_async_send_to_children 4 1%nat;
        do_poll_one (fun h => if Nat.eqb h 0 then complete false 1 4 else not_yet);
        do_poll_one (fun _ => complete true 2 4)]) = 1%nat.
Proof.
  apply (proj2 (proj2 (receive_always_rearmed (H := RemoteId_size_t) 0 3)));
    reflexivity.
Defined.

(** ** Fan-out *)

Lemma child_outcomes_app c tr tr' :
  child_outcomes c (tr ++ tr') = child_outcomes c tr ++ child_outcomes c tr'.
Proof. apply flat_map_app. Qed.

Lemma broadcast_done_app c tr tr' :
  broadcast_done c (tr ++ tr') = broadcast_done c tr ++ broadcast_done c tr'.
Proof. apply flat_map_app. Qed.

Lemma pending_children_app c l l' :
  pending_children c (l ++ l')
  = (pending_children c l + pending_children c l')%nat.
Proof. unfold pending_children. now rewrite List.filter_app, length_app. Qed.

Lemma pending_children_cons c r l :
  pending_children c (r :: l)
  = ((if is_child_send c r then 1 else 0) + pending_children c l)%nat.
Proof. unfold pending_children. cbn. now destruct (is_child_send c r). Qed.

Lemma pending_children_split c t l :
  (pending_children c (found_ready t l) + pending_children c (still_pending t l)
   = pending_children c l)%nat.
Proof.
  unfold found_ready, still_pending.
  induction l as [|r l IH]; [reflexivity|].
  cbn [List.filter]. destruct (reported_ready t r); cbn [negb map].
  - rewrite (pending_children_cons c (resolve t r)), (pending_children_cons c r).
    change (is_child_send c (resolve t r)) with (is_child_send c r). lia.
  - rewrite (pending_children_cons c r (List.filter _ l)),
      (pending_children_cons c r l). lia.
Qed.

Lemma pending_children_fresh c l :
  pending_children c (map fresh_receive l) = 0%nat.
Proof.
  unfold pending_children. induction l as [|h l IH]; [reflexivity|]. exact IH.
Qed.

Lemma pending_children_child_sends c c' l :
  pending_children c (map (child_send c') l)
  = if Nat.eqb c' c then length l else 0%nat.
Proof.
  induction l as [|h l IH]; cbn [map].
  - now destruct (Nat.eqb c' c).
  - rewrite pending_children_cons, IH. unfold is_child_send. cbn.
    destruct (Nat.eqb c' c); reflexivity.
Qed.

Lemma test_errors_no_outcome c t l : child_outcomes c (test_errors t l) = [].
Proof.
  induction l as [|r l IH]; [reflexivity|].
  unfold test_errors in *. cbn [flat_map]. rewrite child_outcomes_app, IH.
  destruct (reported_ready t r); [|reflexivity].
  destruct (test_success (t (req r))), (count_success (t (req r)));
    reflexivity.
Qed.

Lemma test_errors_no_done c t l : broadcast_done c (test_errors t l) = [].
Proof.
  induction l as [|r l IH]; [reflexivity|].
  unfold test_errors in *. cbn [flat_map]. rewrite broadcast_done_app, IH.
  destruct (reported_ready t r); [|reflexivity].
  destruct (test_success (t (req r))), (count_success (t (req r)));
    reflexivity.
Qed.

Lemma isend_events_no_outcome c size h ids :
  child_outcomes c (isend_events size h ids) = [].
Proof. revert h. induction ids as [|i ids IH]; intros h; [reflexivity|]. apply IH. Qed.

Lemma isend_events_no_done c size h ids :
  broadcast_done c (isend_events size h ids) = [].
Proof. revert h. induction ids as [|i ids IH]; intros h; [reflexivity|]. apply IH. Qed.

Lemma warning_events_no_outcome c l : child_outcomes c (warning_events l) = [].
Proof. unfold warning_events. now destruct (100 <? length l)%nat. Qed.

Lemma warning_events_no_done c l : broadcast_done c (warning_events l) = [].
Proof. unfold warning_events. now destruct (100 <? length l)%nat. Qed.

Lemma bc_complete_eq c ok st :
  bc_complete c ok st
  = emits (bc_events c ok (cells st)) (set_cells (bc_cells c ok (cells st)) st).
Proof.
  unfold bc_complete, bc_events, bc_cells.
  destruct (cells st !! c) as [cell|].
  - destruct (bc_remaining cell) as [|[|n]].
    + destruct st. unfold emits, set_cells. cbn. now rewrite app_nil_r.
    + now rewrite emits_cons, emits_nil.
    + now rewrite emits_nil.
  - destruct st. unfold emits, set_cells. cbn. now rewrite app_nil_r.
Qed.

Lemma bc_cells_length c ok cs : length (bc_cells c ok cs) = length cs.
Proof.
  unfold bc_cells. destruct (cs !! c) as [cell|]; [|reflexivity].
  destruct (bc_remaining cell); [reflexivity|]. apply length_insert.
Qed.

Lemma bc_cells_other c c' ok cs : c' <> c -> bc_cells c' ok cs !! c = cs !! c.
Proof.
  intros Hne. unfold bc_cells. destruct (cs !! c') as [cell|]; [|reflexivity].
  destruct (bc_remaining cell); [reflexivity|].
  now apply list_lookup_insert_ne.
Qed.

Lemma bc_events_no_outcome c c' ok cs : child_outcomes c (bc_events c' ok cs) = [].
Proof.
  unfold bc_events. destruct (cs !! c') as [cell|]; [|reflexivity].
  now destruct (bc_remaining cell) as [|[|n]].
Qed.

Lemma bc_events_other c c' ok cs :
  c' <> c -> broadcast_done c (bc_events c' ok cs) = [].
Proof.
  intros Hne. unfold bc_events. destruct (cs !! c') as [cell|]; [|reflexivity].
  destruct (bc_remaining cell) as [|[|n]]; try reflexivity.
  cbn. apply Nat.eqb_neq in Hne. now rewrite Hne.
Qed.

(** The cells and the trace after a callback. *)
Lemma invoke_cells `{RemoteIdType} rank r st :
  cells (invoke rank r st)
  = match callback r with
    | CbBroadcast c => bc_cells c (ok r) (cells st)
    | _ => cells st
    end.
Proof.
  unfold invoke. destruct (callback r) as [|cb|c].
  - now rewrite received_eq.
  - reflexivity.
  - now rewrite bc_complete_eq.
Qed.

Lemma invoke_trace `{RemoteIdType} rank r st :
  trace (invoke rank r st)
  = trace st
    ++ Completed r
       :: match callback r with
          | CbReceived =>
              dispatch_events rank (ok r) (size r) (sender r) (handlers st)
              ++ [MPI_Irecv (to_int (buffer st)) (next_request st)]
          | CbSent cb => [Sent cb (ok r)]
          | CbBroadcast c => bc_events c (ok r) (cells st)
          end.
Proof.
  unfold invoke. destruct (callback r) as [|cb|c].
  - rewrite received_eq. cbn. now rewrite <- !app_assoc.
  - cbn. now rewrite <- !app_assoc.
  - rewrite bc_complete_eq. cbn. now rewrite <- !app_assoc.
Qed.

Lemma child_outcomes_completed c r evs :
  child_outcomes c (Completed r :: evs)
  = (if is_child_send c r then [ok r] else []) ++ child_outcomes c evs.
Proof. reflexivity. Qed.

Lemma broadcast_done_completed c r evs :
  broadcast_done c (Completed r :: evs) = broadcast_done c evs.
Proof. reflexivity. Qed.

Lemma dispatch_no_outcome `{RemoteIdType} c rank ok size sender hs evs :
  child_outcomes c (dispatch_events rank ok size sender hs ++ evs)
  = child_outcomes c evs.
Proof.
  rewrite child_outcomes_app. unfold child_outcomes at 1.
  now rewrite flat_map_dispatch by reflexivity.
Qed.

Lemma dispatch_no_done `{RemoteIdType} c rank ok size sender hs evs :
  broadcast_done c (dispatch_events rank ok size sender hs ++ evs)
  = broadcast_done c evs.
Proof.
  rewrite broadcast_done_app. unfold broadcast_done at 1.
  now rewrite flat_map_dispatch by reflexivity.
Qed.

(** Events and entries that do not concern cell [c] leave its bookkeeping
    as it is. *)
Lemma cell_ok_neutral c cb n live live' cs cs' tr evs :
  cell_ok c cb n live cs tr ->
  cs' !! c = cs !! c ->
  pending_children c live' = pending_children c live ->
  child_outcomes c evs = [] ->
  broadcast_done c evs = [] ->
  cell_ok c cb n live' cs' (tr ++ evs).
Proof.
  intros (cell & Hl & Hcb & Hrem & Hres & Hdone & Hlen) Hcs Hp Ho Hd.
  exists cell.
  rewrite child_outcomes_app, broadcast_done_app, Ho, Hd, !app_nil_r, Hp, Hcs.
  repeat split; assumption.
Qed.

Lemma cells_fresh_neutral live live' cs tr evs :
  cells_fresh live cs tr ->
  (forall r c, In r live' -> callback r = CbBroadcast c ->
               exists r0, In r0 live /\ callback r0 = CbBroadcast c) ->
  (forall c, child_outcomes c evs = [] /\ broadcast_done c evs = []) ->
  cells_fresh live' cs (tr ++ evs).
Proof.
  intros [Ha Hb] Hlive Hevs. split.
  - intros r c Hr Hc. destruct (Hlive r c Hr Hc) as (r0 & Hr0 & Hc0).
    eapply Ha; eassumption.
  - intros c Hc. destruct (Hb c Hc) as [Ho Hd]. destruct (Hevs c) as [Ho' Hd'].
    now rewrite child_outcomes_app, broadcast_done_app, Ho, Hd, Ho', Hd'.
Qed.

(** A callback keeps the bookkeeping of every cell right, the entry that
    was called back no longer counting as awaited. *)
Lemma invoke_cell_ok `{RemoteIdType} rank r live st c cb n :
  cell_ok c cb n (r :: live) (cells st) (trace st) ->
  cell_ok c cb n live (cells (invoke rank r st)) (trace (invoke rank r st)).
Proof.
  intros (cell & Hl & Hcb & Hrem & Hres & Hdone & Hlen).
  unfold cell_ok. rewrite invoke_cells, invoke_trace.
  rewrite pending_children_cons in Hrem, Hlen.
  rewrite child_outcomes_app, broadcast_done_app,
    child_outcomes_completed, broadcast_done_completed.
  unfold is_child_send in *.
  destruct (callback r) as [|cb'|c'] eqn:E.
  - exists cell. rewrite dispatch_no_outcome, dispatch_no_done. cbn.
    rewrite !app_nil_r. repeat split; assumption.
  - exists cell. cbn. rewrite !app_nil_r. repeat split; assumption.
  - destruct (Nat.eqb_spec c' c) as [->|Hne].
    + assert (Hc : (c < length (cells st))%nat) by (eapply lookup_lt_Some, Hl).
      cbn [Nat.add] in Hrem.
      unfold bc_cells, bc_events. rewrite Hl, Hrem.
      eexists. split; [apply list_lookup_insert_eq, Hc|].
      cbn [bc_callback bc_remaining bc_result].
      rewrite Hrem in Hdone. rewrite Hdone.
      rewrite forallb_app, <- Hres. cbn [forallb app].
      rewrite length_app. cbn [length].
      destruct (pending_children c live) as [|p]; cbn.
      * rewrite Nat.eqb_refl, Hcb, !andb_true_r. cbn [app].
        repeat split; try assumption. lia.
      * rewrite !andb_true_r. repeat split; try assumption. lia.
    + exists cell. rewrite bc_cells_other by assumption.
      rewrite bc_events_no_outcome, bc_events_other by assumption.
      cbn. rewrite !app_nil_r. repeat split; assumption.
Qed.

Lemma invoke_cells_fresh `{RemoteIdType} rank r live st :
  cells_fresh (r :: live) (cells st) (trace st) ->
  cells_fresh live (cells (invoke rank r st)) (trace (invoke rank r st)).
Proof.
  intros [Ha Hb]. rewrite invoke_cells, invoke_trace.
  assert (Hlen : length (match callback r with
                         | CbBroadcast c => bc_cells c (ok r) (cells st)
                         | _ => cells st
                         end) = length (cells st)).
  { destruct (callback r); try reflexivity. apply bc_cells_length. }
  split.
  - intros r' c Hr' Hc. rewrite Hlen. eapply Ha; [right|]; eassumption.
  - intros c Hc. rewrite Hlen in Hc. destruct (Hb c Hc) as [Ho Hd].
    rewrite child_outcomes_app, broadcast_done_app,
      child_outcomes_completed, broadcast_done_completed, Ho, Hd.
    unfold is_child_send.
    destruct (callback r) as [|cb'|c'] eqn:E.
    + rewrite dispatch_no_outcome, dispatch_no_done. now cbn.
    + now cbn.
    + assert (Hc' : (c' < length (cells st))%nat).
      { eapply Ha; [left; reflexivity | exact E]. }
      assert (Hne : c' <> c) by lia.
      rewrite bc_events_no_outcome, bc_events_other by assumption.
      apply Nat.eqb_neq in Hne. now rewrite Hne.
Qed.

Lemma callbacks_cell_ok `{RemoteIdType} rank l live st c cb n :
  cell_ok c cb n (l ++ live) (cells st) (trace st) ->
  let st' := fold_left (fun s r => invoke rank r s) l st in
  cell_ok c cb n live (cells st') (trace st').
Proof.
  revert st. induction l as [|r l IH]; intros st Hok; [exact Hok|].
  cbn [fold_left]. apply IH. now apply invoke_cell_ok.
Qed.

Lemma callbacks_cells_fresh `{RemoteIdType} rank l live st :
  cells_fresh (l ++ live) (cells st) (trace st) ->
  let st' := fold_left (fun s r => invoke rank r s) l st in
  cells_fresh live (cells st') (trace st').
Proof.
  revert st. induction l as [|r l IH]; intros st Hok; [exact Hok|].
  cbn [fold_left]. apply IH. now apply invoke_cells_fresh.
Qed.

Lemma partition_callbacks t l r c :
  In r (found_ready t l ++ still_pending t l) ->
  callback r = CbBroadcast c ->
  exists r0, In r0 l /\ callback r0 = CbBroadcast c.
Proof.
  intros Hin Hc. apply in_app_or in Hin. destruct Hin as [Hin|Hin].
  - unfold found_ready in Hin. apply in_map_iff in Hin.
    destruct Hin as (r0 & <- & Hr0). apply filter_In in Hr0.
    exists r0. split; [tauto | exact Hc].
  - unfold still_pending in Hin. apply filter_In in Hin.
    exists r. split; [tauto | exact Hc].
Qed.

Lemma pending_children_partition c t l :
  pending_children c (found_ready t l ++ still_pending t l)
  = pending_children c l.
Proof. rewrite pending_children_app. apply pending_children_split. Qed.

(** One tick keeps the bookkeeping of every cell right. *)
Lemma poll_one_cell_ok `{RemoteIdType} rank t st c cb n :
  cell_ok c cb n (ledger st) (cells st) (trace st) ->
  let st' := poll_one rank t st in
  cell_ok c cb n (ledger st') (cells st') (trace st').
Proof.
  intros Hok. cbn zeta.
  destruct (poll_one_effect rank t st) as (H1 & H2 & _).
  cbn zeta in H1, H2. unfold ledger at 1. rewrite H1, H2.
  rewrite poll_one_eq. cbn [cells trace emits set_requests_to_process].
  apply cell_ok_neutral with (live := still_pending t (ledger st))
                             (cs := cells (fold_left (fun s r => invoke rank r s)
       (found_ready t (ledger st))
       (set_requests_to_process
          (found_ready t (ledger st) ++ still_pending t (ledger st))
          (emits (test_errors t (ledger st))
             (set_requests [] (set_requests_to_process (ledger st) st)))))).
  - apply callbacks_cell_ok. cbn [cells trace emits set_requests_to_process set_requests].
    eapply cell_ok_neutral; [exact Hok|reflexivity| | |].
    + apply pending_children_partition.
    + apply test_errors_no_outcome.
    + apply test_errors_no_done.
  - reflexivity.
  - rewrite pending_children_app, pending_children_fresh. lia.
  - rewrite child_outcomes_app, warning_events_no_outcome. reflexivity.
  - rewrite broadcast_done_app, warning_events_no_done. reflexivity.
Qed.

Lemma poll_one_cells_fresh `{RemoteIdType} rank t st :
  cells_fresh (ledger st) (cells st) (trace st) ->
  let st' := poll_one rank t st in
  cells_fresh (ledger st') (cells st') (trace st').
Proof.
  intros Hok. cbn zeta.
  destruct (poll_one_effect rank t st) as (H1 & H2 & _).
  cbn zeta in H1, H2. unfold ledger at 1. rewrite H1, H2.
  rewrite poll_one_eq. cbn [cells trace emits set_requests_to_process].
  apply cells_fresh_neutral with (live := still_pending t (ledger st)).
  - apply callbacks_cells_fresh.
    cbn [cells trace emits set_requests_to_process set_requests].
    eapply cells_fresh_neutral; [exact Hok| |].
    + intros r c. apply partition_callbacks.
    + intros c. split;
        [apply test_errors_no_outcome | apply test_errors_no_done].
  - intros r c Hin Hc. apply in_app_or in Hin. destruct Hin as [Hin|Hin].
    + exists r. now split.
    + apply in_map_iff in Hin. destruct Hin as (h & <- & _). discriminate Hc.
  - intros c. rewrite child_outcomes_app, broadcast_done_app,
      warning_events_no_outcome, warning_events_no_done. now split.
Qed.

Lemma ledger_staged st r :
  requests_to_process st ++ requests st ++ r = ledger st ++ r.
Proof. unfold ledger. now rewrite app_assoc. Qed.

Lemma pending_children_none c l :
  (forall r, In r l -> is_child_send c r = false) ->
  pending_children c l = 0%nat.
Proof.
  intros Hall. induction l as [|r l IH]; [reflexivity|].
  rewrite pending_children_cons, (Hall r) by (now left).
  apply IH. intros r' Hr'. apply Hall. now right.
Qed.

(** Every call keeps the bookkeeping of an existing cell right. *)
Lemma step_cell_ok `{RemoteIdType} rank nodes st call c cb n :
  cell_ok c cb n (ledger st) (cells st) (trace st) ->
  let st' := step rank nodes st call in
  cell_ok c cb n (ledger st') (cells st') (trace st').
Proof.
  intros Hok. cbn zeta.
  destruct call as [m|m cb'|m cb'|h|t]; cbn [step].
  - unfold ledger at 1. cbn. rewrite ledger_staged.
    eapply cell_ok_neutral; [exact Hok|reflexivity| |reflexivity|reflexivity].
    rewrite pending_children_app. cbn. lia.
  - unfold ledger at 1. cbn. rewrite ledger_staged.
    eapply cell_ok_neutral; [exact Hok|reflexivity| |reflexivity|reflexivity].
    rewrite pending_children_app. cbn. lia.
  - rewrite async_send_to_children_eq. cbn zeta.
    unfold ledger at 1. cbn [requests requests_to_process cells trace].
    rewrite ledger_staged.
    assert (Hc : (c < length (cells st))%nat).
    { destruct Hok as (cell & Hl & _). eapply lookup_lt_Some, Hl. }
    assert (Hne : Nat.eqb (length (cells st)) c = false).
    { apply Nat.eqb_neq. lia. }
    eapply cell_ok_neutral; [exact Hok| | | |].
    + now apply lookup_app_l.
    + rewrite pending_children_app, pending_children_child_sends, Hne. lia.
    + rewrite child_outcomes_app, isend_events_no_outcome.
      now destruct (children rank nodes).
    + rewrite broadcast_done_app, isend_events_no_done.
      destruct (children rank nodes); [|reflexivity].
      cbn. now rewrite Hne.
  - unfold register_receive_handler. cbn.
    rewrite <- (app_nil_r (trace st)).
    eapply cell_ok_neutral; [exact Hok| | | |]; reflexivity.
  - now apply poll_one_cell_ok.
Qed.

Lemma step_cells_fresh `{RemoteIdType} rank nodes st call :
  cells_fresh (ledger st) (cells st) (trace st) ->
  let st' := step rank nodes st call in
  cells_fresh (ledger st') (cells st') (trace st').
Proof.
  intros Hok. cbn zeta.
  destruct call as [m|m cb'|m cb'|h|t]; cbn [step].
  - unfold ledger at 1. cbn. rewrite ledger_staged.
    eapply cells_fresh_neutral; [exact Hok| |now split].
    intros r c Hin Hc. apply in_app_or in Hin. destruct Hin as [Hin|[<-|[]]].
    + exists r. now split.
    + discriminate Hc.
  - unfold ledger at 1. cbn. rewrite ledger_staged.
    eapply cells_fresh_neutral; [exact Hok| |now split].
    intros r c Hin Hc. apply in_app_or in Hin. destruct Hin as [Hin|[<-|[]]].
    + exists r. now split.
    + discriminate Hc.
  - rewrite async_send_to_children_eq. cbn zeta.
    unfold ledger at 1. cbn [requests requests_to_process cells trace].
    rewrite ledger_staged. destruct Hok as [Ha Hb]. split.
    + intros r c Hin Hc. rewrite length_app. cbn [length].
      apply in_app_or in Hin. destruct Hin as [Hin|Hin].
      * specialize (Ha r c Hin Hc). lia.
      * apply in_map_iff in Hin. destruct Hin as (h & <- & _).
        cbn in Hc. injection Hc as <-. lia.
    + intros c Hc. rewrite length_app in Hc. cbn [length] in Hc.
      destruct (Hb c ltac:(lia)) as [Ho Hd].
      rewrite !child_outcomes_app, !broadcast_done_app, Ho, Hd,
        isend_events_no_outcome, isend_events_no_done.
      assert (Hne : Nat.eqb (length (cells st)) c = false).
      { apply Nat.eqb_neq. lia. }
      destruct (children rank nodes); cbn; rewrite ?Hne; now split.
  - unfold register_receive_handler. cbn.
    rewrite <- (app_nil_r (trace st)).
    eapply cells_fresh_neutral; [exact Hok| |now split].
    intros r c Hin Hc. exists r. now split.
  - now apply poll_one_cells_fresh.
Qed.

Lemma run_cell_ok `{RemoteIdType} rank nodes calls st c cb n :
  cell_ok c cb n (ledger st) (cells st) (trace st) ->
  let st' := run rank nodes st calls in
  cell_ok c cb n (ledger st') (cells st') (trace st').
Proof.
  revert st. induction calls as [|call calls IH]; intros st Hok; [exact Hok|].
  unfold run. cbn [fold_left]. apply IH. now apply step_cell_ok.
Qed.

Lemma run_cells_fresh `{RemoteIdType} rank nodes calls st :
  cells_fresh (ledger st) (cells st) (trace st) ->
  let st' := run rank nodes st calls in
  cells_fresh (ledger st') (cells st') (trace st').
Proof.
  revert st. induction calls as [|call calls IH]; intros st Hok; [exact Hok|].
  unfold run. cbn [fold_left]. apply IH. now apply step_cells_fresh.
Qed.

Lemma init_cells_fresh : cells_fresh (ledger init) (cells init) (trace init).
Proof. split; [intros r c []|now split]. Qed.

(** Right after [async_send_to_children] the bookkeeping of the new cell
    is right: as many child sends await their callback as there are
    children, and the callback has fired already if there are none. *)
Lemma async_send_to_children_cell_ok `{RemoteIdType} rank nodes size cb st :
  cells_fresh (ledger st) (cells st) (trace st) ->
  let st' := async_send_to_children rank nodes size cb st in
  cell_ok (length (cells st)) cb (length (children rank nodes))
    (ledger st') (cells st') (trace st').
Proof.
  intros [Ha Hb]. cbn zeta. rewrite async_send_to_children_eq. cbn zeta.
  unfold ledger at 1. cbn [requests requests_to_process cells trace].
  rewrite ledger_staged.
  destruct (Hb (length (cells st)) (Nat.le_refl _)) as [Ho Hd].
  assert (Hp : pending_children (length (cells st)) (ledger st) = 0%nat).
  { apply pending_children_none. intros r Hr. unfold is_child_send.
    destruct (callback r) as [| |c] eqn:E; try reflexivity.
    specialize (Ha r c Hr E). apply Nat.eqb_neq. lia. }
  eexists. split; [apply list_lookup_middle; reflexivity|].
  cbn [bc_callback bc_remaining bc_result].
  rewrite pending_children_app, pending_children_child_sends, Nat.eqb_refl,
    Hp, length_seq.
  rewrite !child_outcomes_app, !broadcast_done_app, Ho, Hd,
    isend_events_no_outcome, isend_events_no_done.
  destruct (children rank nodes) as [|child ids]; cbn.
  - rewrite Nat.eqb_refl. repeat split.
  - repeat split.
Qed.

(** C2.  From any state the client can reach, one call of
    [async_send_to_children] leads to at most one invocation of the
    caller's callback, whatever is called afterwards; the invocation has
    happened exactly when no child send of the call awaits completion any
    more (at once if the rank has no child), and it passes the conjunction
    of the outcomes of the child sends, each child send having completed
    once. *)
Theorem broadcast_callback_fires_once `{RemoteIdType} (rank nodes : Z)
    (before : list Call) (size : Z) (cb : SentCallback) (after : list Call) :
  let st0 := run rank nodes init before in
  let c := length (cells st0) in
  let st1 := async_send_to_children rank nodes size cb st0 in
  let st2 := run rank nodes st1 after in
  (children rank nodes = [] -> broadcast_done c (trace st1) = [(cb, true)])
  /\ (length (broadcast_done c (trace st2)) <= 1)%nat
  /\ (length (child_outcomes c (trace st2)) + pending_children c (ledger st2)
      = length (children rank nodes))%nat
  /\ (pending_children c (ledger st2) = 0%nat ->
      broadcast_done c (trace st2)
      = [(cb, forallb (fun b => b) (child_outcomes c (trace st2)))])
  /\ ((0 < pending_children c (ledger st2))%nat ->
      broadcast_done c (trace st2) = []).
Proof.
  intros st0 c st1 st2.
  assert (Hfresh : cells_fresh (ledger st0) (cells st0) (trace st0)).
  { apply run_cells_fresh, init_cells_fresh. }
  pose proof (async_send_to_children_cell_ok rank nodes size cb st0 Hfresh)
    as Hok1.
  cbn zeta in Hok1. fold c st1 in Hok1.
  pose proof (run_cell_ok rank nodes after st1 c cb _ Hok1) as Hok2.
  cbn zeta in Hok2. fold st2 in Hok2.
  split; [|clear Hok1; destruct Hok2 as (cell & _ & _ & Hrem & Hres & Hdone & Hlen);
           rewrite Hdone, <- Hres, <- Hrem; repeat split].
  - intros Hnone. rewrite Hnone in Hok1. cbn [length] in Hok1.
    destruct Hok1 as (cell & _ & _ & Hrem & Hres & Hdone & Hlen).
    destruct (child_outcomes c (trace st1)); [|cbn [length] in Hlen; lia].
    cbn [length Nat.add] in Hlen. cbn [forallb] in Hres.
    rewrite <- Hrem in Hlen. rewrite Hlen in Hdone.
    now rewrite Hdone, Hres.
  - destruct (bc_remaining cell); cbn; lia.
  - rewrite Hrem. exact Hlen.
  - intros ->. reflexivity.
  - intros Hpos. destruct (bc_remaining cell); [lia|reflexivity].
Qed.

Lemma broadcast_callback_fires_once_witness :
  let st2 :=
    run (R := RemoteId_size_t) 0 3
      (async_send_to_children (R := RemoteId_size_t) 0 3 4 7%nat
         (run (R := RemoteId_size_t) 0 3 init [do_set_buffer_size 64]))
      [do_poll_one (fun h => if Nat.eqb h 2 then complete false 0 4 else not_yet);
       do_poll_one (fun h => if Nat.eqb h 1 then complete true 0 4 else not_yet)] in
  pending_children 0 (ledger st2) = 0%nat
  /\ child_outcomes 0 (trace st2) = [false; true]
  /\ broadcast_done 0 (trace st2)
     = [(7%nat, forallb (fun b => b) (child_outcomes 0 (trace st2)))].
Proof.
  cbv zeta. split; [reflexivity|]. split; [reflexivity|].
  apply (proj1 (proj2 (proj2 (proj2
           (broadcast_callback_fires_once (H := RemoteId_size_t) 0 3
              [do_set_buffer_size 64] 4 7%nat
              [do_poll_one (fun h => if Nat.eqb h 2 then complete false 0 4
                                     else not_yet);
               do_poll_one (fun h => if Nat.eqb h 1 then complete true 0 4
                                     else not_yet)]))))).
  reflexivity.
Defined.

(** ** Two runs *)

(** Rank 0 among two nodes, with handler 9: a 3-byte message from rank 1
    reaches the child-message entry point, and a new receive is posted. *)
Example message_from_child :
  let st := run (R := RemoteId_size_t) 0 2 init
              [do_register_receive_handler 9%nat;
               do_set_buffer_size 16;
               do_poll_one (fun _ => complete true 1 3)] in
  handler_calls (trace st) = [received_from_child 9%nat 3 1]
  /\ posted_receives (trace st) = [0%nat; 1%nat]
  /\ ledger st = [fresh_receive 1].
Proof. repeat split. Qed.

(** Rank 0 among five nodes sends to its children 1 and 2; the caller's
    callback is invoked once both sends have completed. *)
Example broadcast_to_two_children :
  let st1 := run (R := RemoteId_size_t) 0 5 init
               [do_async_send_to_children 4 3%nat;
                do_poll_one (fun h => if Nat.eqb h 0 then complete true 0 4
                                      else not_yet)] in
  let st2 := poll_one (R := RemoteId_size_t) 0 (fun _ => complete true 0 4) st1 in
  broadcast_done 0 (trace st1) = []
  /\ broadcast_done 0 (trace st2) = [(3%nat, true)]
  /\ ledger st2 = [].
Proof. repeat split. Qed.


(** * Further properties *)

(** ** The shape of the tree *)

Section TreeShape.
Context {R : RemoteIdType}.

Lemma parent_of_bounds r :
  0 < r <= INT_MAX -> 0 <= parent_of r < r.
Proof.
  intros Hr. rewrite parent_of_rank by lia.
  destruct (Z.eqb_spec r 0) as [->|_]; [lia|].
  split; [apply Z.div_pos; lia | apply Z.div_lt_upper_bound; lia].
Qed.

Lemma ancestor_S k r : ancestor (S k) r = parent_of (ancestor k r).
Proof. reflexivity. Qed.

Lemma ancestor_formula r k :
  0 <= r <= INT_MAX -> Z.of_nat k <= Z.log2 (r + 1) ->
  ancestor k r = (r + 1) / 2 ^ Z.of_nat k - 1.
Proof.
  intros Hr. induction k as [|k IH]; intros Hk.
  - cbn. rewrite Z.div_1_r. lia.
  - rewrite ancestor_S, IH by lia.
    assert (Hpow : 2 ^ Z.of_nat (S k) <= r + 1).
    { transitivity (2 ^ Z.log2 (r + 1)).
      - apply Z.pow_le_mono_r; lia.
      - apply Z.log2_spec. lia. }
    assert (H2k : 0 < 2 ^ Z.of_nat k) by (apply Z.pow_pos_nonneg; lia).
    replace (2 ^ Z.of_nat (S k)) with (2 ^ Z.of_nat k * 2) in *.
    2:{ rewrite Nat2Z.inj_succ, Z.pow_succ_r by lia. lia. }
    assert (Hq : 2 <= (r + 1) / 2 ^ Z.of_nat k).
    { apply Z.div_le_lower_bound; lia. }
    assert (Hq' : (r + 1) / 2 ^ Z.of_nat k <= r + 1).
    { apply Z.div_le_upper_bound; nia. }
    rewrite parent_of_rank by (unfold INT_MAX in *; lia).
    destruct (Z.eqb_spec ((r + 1) / 2 ^ Z.of_nat k - 1) 0) as [E|_]; [lia|].
    rewrite <- Z.div_div by lia.
    set (q := (r + 1) / 2 ^ Z.of_nat k) in *.
    replace (q - 1 - 1) with (q + (-1) * 2) by lia.
    rewrite Z.div_add by lia. lia.
Qed.
End TreeShape.

(** X1.  Among [n] nodes every rank but the root is one of the children
    of its parent. *)
Theorem child_of_its_parent `{RemoteIdType} (n r : Z) :
  1 <= r < n -> n <= INT_MAX ->
  In r (children (parent r) n).
Proof.
  intros Hr Hn. unfold children, parent, id.
  assert (Hr' : 0 < r <= INT_MAX) by lia.
  pose proof (parent_of_bounds r Hr') as Hp.
  assert (Heq : parent_of r = (r - 1) / 2).
  { rewrite parent_of_rank by lia.
    destruct (Z.eqb_spec r 0); [lia | reflexivity]. }
  rewrite children_of_filter by lia.
  rewrite Heq in *. apply filter_In. split.
  - pose proof (Z.div_mod (r - 1) 2 ltac:(lia)) as Hdm.
    pose proof (Z.mod_pos_bound (r - 1) 2 ltac:(lia)) as Hm.
    cbn [In]. lia.
  - apply Z.ltb_lt. lia.
Qed.

Lemma child_of_its_parent_witness :
  In 4 (children (R := RemoteId_size_t) (parent (R := RemoteId_size_t) 4) 5).
Proof.
  apply (child_of_its_parent (H := RemoteId_size_t) 5 4);
    unfold INT_MAX; lia.
Defined.

(** X2.  The parent of a rank other than the root is a smaller rank, and
    following [parent()] from rank [r] reaches the root after exactly
    [log2 (r + 1)] steps: not earlier, and without a cycle. *)
Theorem root_is_reached `{RemoteIdType} (r : Z) :
  0 <= r <= INT_MAX ->
  (0 < r -> 0 <= parent r < r)
  /\ ancestor (Z.to_nat (Z.log2 (r + 1))) r = 0
  /\ (forall k, Z.of_nat k < Z.log2 (r + 1) -> 0 < ancestor k r).
Proof.
  intros Hr. split; [|split].
  - intros Hpos. apply parent_of_bounds. lia.
  - rewrite ancestor_formula by (rewrite ?Z2Nat.id; try apply Z.log2_nonneg; lia).
    rewrite Z2Nat.id by apply Z.log2_nonneg.
    destruct (Z.log2_spec (r + 1) ltac:(lia)) as [Hlo Hhi].
    assert (Hq : (r + 1) / 2 ^ Z.log2 (r + 1) = 1).
    { symmetry. apply Z.div_unique with (r := r + 1 - 2 ^ Z.log2 (r + 1)).
      - left. rewrite Z.pow_succ_r in Hhi by apply Z.log2_nonneg. lia.
      - lia. }
    lia.
  - intros k Hk. rewrite ancestor_formula by lia.
    destruct (Z.log2_spec (r + 1) ltac:(lia)) as [Hlo _].
    assert (Hpow : 2 ^ Z.of_nat k * 2 <= 2 ^ Z.log2 (r + 1)).
    { replace (2 ^ Z.of_nat k * 2) with (2 ^ Z.succ (Z.of_nat k))
        by (rewrite Z.pow_succ_r by lia; lia).
      apply Z.pow_le_mono_r; lia. }
    assert (H2k : 0 < 2 ^ Z.of_nat k) by (apply Z.pow_pos_nonneg; lia).
    assert (Hq : 2 <= (r + 1) / 2 ^ Z.of_nat k).
    { apply Z.div_le_lower_bound; lia. }
    lia.
Qed.

Lemma root_is_reached_witness :
  ancestor (R := RemoteId_size_t) 3 12 = 0
  /\ 0 < ancestor (R := RemoteId_size_t) 2 12.
Proof.
  pose proof (root_is_reached (H := RemoteId_size_t) 12
                ltac:(unfold INT_MAX; lia)) as (_ & Hroot & Hbefore).
  split; [exact Hroot | apply Hbefore; reflexivity].
Defined.

(** X3.  The children of a rank are larger than the rank, and the tree is
    filled from the left: both children when [2r + 2 < n], the left child
    alone when [2r + 2 = n], none when [n < 2r + 2]. *)
Theorem children_fill_from_the_left `{RemoteIdType} (r n : Z) :
  0 <= r < INT_MAX -> n <= INT_MAX ->
  (2 * r + 2 < n -> children r n = [2 * r + 1; 2 * r + 2])
  /\ (2 * r + 2 = n -> children r n = [2 * r + 1])
  /\ (n < 2 * r + 2 -> children r n = [])
  /\ Forall (fun c => r < c) (children r n).
Proof.
  intros Hr Hn. unfold children, id.
  rewrite children_of_filter by assumption. cbn [List.filter].
  destruct (Z.ltb_spec (2 * r + 1) n), (Z.ltb_spec (2 * r + 2) n);
    repeat split; intros; try lia; try reflexivity;
    repeat constructor; lia.
Qed.

Lemma children_fill_from_the_left_witness :
  children (R := RemoteId_size_t) 2 6 = [5]
  /\ children (R := RemoteId_size_t) 1 6 = [3; 4]
  /\ children (R := RemoteId_size_t) 3 6 = [].
Proof.
  pose proof (children_fill_from_the_left (H := RemoteId_size_t) 2 6
                ltac:(unfold INT_MAX; lia) ltac:(unfold INT_MAX; lia))
    as (_ & H1 & _).
  pose proof (children_fill_from_the_left (H := RemoteId_size_t) 1 6
                ltac:(unfold INT_MAX; lia) ltac:(unfold INT_MAX; lia))
    as (H2 & _).
  pose proof (children_fill_from_the_left (H := RemoteId_size_t) 3 6
                ltac:(unfold INT_MAX; lia) ltac:(unfold INT_MAX; lia))
    as (_ & _ & H0 & _).
  split; [apply H1; lia | split; [apply H2; lia | apply H0; lia]].
Defined.

(** ** Dispatch and the tree *)

(** X4.  Dispatch follows the tree.  A message that arrived from one of
    the rank's children goes to [received_from_child] of every handler,
    never to [received_from_parent]; a message from the rank's parent goes
    to [received_from_parent]; and on the root, whose parent is the root,
    a message from rank 0 itself counts as a message from the parent. *)
Theorem dispatch_follows_tree `{RemoteIdType} (rank n size sender : Z)
    (st : State) :
  0 <= rank < INT_MAX -> n <= INT_MAX ->
  (In sender (children rank n) ->
   trace (received rank true size sender st)
   = trace st
     ++ map (fun h => received_from_child h size sender) (handlers st)
     ++ [MPI_Irecv (to_int (buffer st)) (next_request st)])
  /\ (sender = parent rank ->
      trace (received rank true size sender st)
      = trace st
        ++ map (fun h => received_from_parent h size) (handlers st)
        ++ [MPI_Irecv (to_int (buffer st)) (next_request st)])
  /\ (rank = 0 -> parent rank = id rank).
Proof.
  intros Hr Hn.
  assert (Hp : 0 <= parent rank <= rank).
  { unfold parent, id. rewrite parent_of_rank by lia.
    destruct (Z.eqb_spec rank 0); [lia|].
    split; [apply Z.div_pos; lia | apply Z.div_le_upper_bound; lia]. }
  split; [|split].
  - intros Hin. unfold children, id in Hin.
    rewrite children_of_filter in Hin by assumption.
    apply filter_In in Hin. destruct Hin as [Hin Hlt].
    apply Z.ltb_lt in Hlt.
    assert (Hs : rank < sender) by (cbn [In] in Hin; lia).
    rewrite received_ok_eq, set_recv_eq. cbn.
    rewrite wrapR_small by (unfold INT_MAX in *; lia).
    destruct (Z.eqb_spec sender (parent rank)); [lia|].
    now rewrite <- app_assoc.
  - intros ->. rewrite received_ok_eq, set_recv_eq. cbn.
    rewrite wrapR_small by (unfold INT_MAX in *; lia).
    rewrite Z.eqb_refl. now rewrite <- app_assoc.
  - intros ->. reflexivity.
Qed.

Lemma dispatch_follows_tree_witness :
  let st := register_receive_handler 7%nat init in
  handler_calls (trace (received (R := RemoteId_size_t) 1 true 8 4 st))
  = [received_from_child 7%nat 8 4]
  /\ handler_calls (trace (received (R := RemoteId_size_t) 1 true 8 0 st))
     = [received_from_parent 7%nat 8].
Proof.
  cbv zeta.
  pose proof (dispatch_follows_tree (H := RemoteId_size_t) 1 5 8 4
                (register_receive_handler 7%nat init)
                ltac:(unfold INT_MAX; lia) ltac:(unfold INT_MAX; lia))
    as (Hchild & _).
  pose proof (dispatch_follows_tree (H := RemoteId_size_t) 1 5 8 0
                (register_receive_handler 7%nat init)
                ltac:(unfold INT_MAX; lia) ltac:(unfold INT_MAX; lia))
    as (_ & Hparent & _).
  split.
  - rewrite Hchild; [reflexivity | right; left; reflexivity].
  - rewrite Hparent; reflexivity.
Defined.

(** ** Every operation is accounted for *)

Lemma handles_partition t l :
  Permutation (map req (still_pending t l) ++ map req (found_ready t l))
    (map req l).
Proof.
  unfold found_ready, still_pending.
  induction l as [|r l IH]; [constructor|].
  cbn [List.filter map]. destruct (reported_ready t r); cbn [negb map app].
  - apply Permutation_sym, Permutation_cons_app, Permutation_sym, IH.
  - now constructor.
Qed.

Lemma map_req_fresh l : map req (map fresh_receive l) = l.
Proof. induction l as [|h l IH]; [reflexivity|]. cbn. now rewrite IH. Qed.

Lemma map_req_child_sends c l : map req (map (child_send c) l) = l.
Proof. induction l as [|h l IH]; [reflexivity|]. cbn. now rewrite IH. Qed.

Lemma isend_events_no_completion size h ids :
  completions (isend_events size h ids) = [].
Proof. revert h. induction ids as [|i ids IH]; intros h; [reflexivity|]. apply IH. Qed.

(** The requests in the ledger and the requests that were called back
    are, together, the requests made so far. *)
Lemma step_accounted `{RemoteIdType} rank nodes st c :
  Permutation (map req (ledger st) ++ map req (completions (trace st)))
    (seq 0 (next_request st)) ->
  let st' := step rank nodes st c in
  Permutation (map req (ledger st') ++ map req (completions (trace st')))
    (seq 0 (next_request st')).
Proof.
  intros Hinv. cbn zeta.
  assert (Hmore : forall l k,
             Permutation
               (map req (ledger st ++ l) ++ map req (completions (trace st)))
               (seq 0 (next_request st) ++ k) <-> Permutation (map req l) k).
  { intros l k. rewrite <- Hinv, map_app, <- !app_assoc.
    rewrite (Permutation_app_comm (map req l)), !app_assoc.
    split; [apply Permutation_app_inv_l | apply Permutation_app_head]. }
  destruct c as [m|m cb|m cb|h|t]; cbn [step].
  - change (next_request (set_buffer_size m st)) with (S (next_request st)).
    change (ledger (set_buffer_size m st))
      with (requests_to_process st ++ requests st
            ++ [fresh_receive (next_request st)]).
    change (trace (set_buffer_size m st))
      with (trace st ++ [MPI_Irecv (to_int m) (next_request st)]).
    rewrite ledger_staged, completions_app, app_nil_r, seq_S.
    now apply Hmore.
  - change (next_request (async_send_to_parent rank m cb st))
      with (S (next_request st)).
    change (ledger (async_send_to_parent rank m cb st))
      with (requests_to_process st ++ requests st
            ++ [{| req := next_request st; callback := CbSent cb;
                   ok := false; sender := 0; size := 0 |}]).
    change (trace (async_send_to_parent rank m cb st))
      with (trace st ++ [MPI_Isend (to_int m) (parent rank) MSG_TAG (next_request st)]).
    rewrite ledger_staged, completions_app, app_nil_r, seq_S.
    now apply Hmore.
  - rewrite async_send_to_children_eq. cbn zeta.
    unfold ledger at 1. cbn [requests requests_to_process next_request trace].
    rewrite ledger_staged, !completions_app, isend_events_no_completion.
    replace (completions match children rank nodes with
                         | [] => [BroadcastDone (length (cells st)) cb true]
                         | _ :: _ => []
                         end) with (@nil MpiRequest)
      by (now destruct (children rank nodes)).
    rewrite !app_nil_r, seq_app. cbn [Nat.add].
    apply Hmore. now rewrite map_req_child_sends.
  - exact Hinv.
  - destruct (poll_one_effect rank t st) as (H1 & H2 & H3 & _ & _ & H6 & _).
    cbn zeta in *. unfold ledger at 1. rewrite H1, H2, H3, H6.
    rewrite !map_app, map_req_fresh, seq_app. cbn [Nat.add].
    rewrite <- Hinv, <- (handles_partition t (ledger st)).
    set (P := map req (still_pending t (ledger st))).
    set (F := seq (next_request st) _).
    set (C := map req (completions (trace st))).
    set (Rdy := map req (found_ready t (ledger st))).
    rewrite <- !app_assoc. apply Permutation_app_head.
    rewrite (Permutation_app_comm F), <- app_assoc.
    rewrite !app_assoc. apply Permutation_app_tail, Permutation_app_comm.
Qed.

(** X5.  In every state the client can reach, the requests that await
    their callback and the requests that were called back are, together,
    exactly the requests made so far, each of them once: no operation is
    lost, none is called back twice, and none is called back while it is
    still in the ledger. *)
Theorem every_operation_accounted `{RemoteIdType} (rank nodes : Z)
    (cs : list Call) :
  let st := run rank nodes init cs in
  Permutation (map req (ledger st) ++ map req (completions (trace st)))
    (seq 0 (next_request st))
  /\ NoDup (map req (ledger st) ++ map req (completions (trace st))).
Proof.
  cbn zeta.
  assert (Hinv : forall st,
             Permutation
               (map req (ledger st) ++ map req (completions (trace st)))
               (seq 0 (next_request st)) ->
             Permutation
               (map req (ledger (run rank nodes st cs))
                ++ map req (completions (trace (run rank nodes st cs))))
               (seq 0 (next_request (run rank nodes st cs)))).
  { induction cs as [|c cs IH]; intros st Hst; [exact Hst|].
    unfold run. cbn [fold_left]. apply IH. now apply step_accounted. }
  specialize (Hinv init ltac:(constructor)).
  split; [exact Hinv|].
  rewrite Hinv. apply NoDup_seq.
Qed.

(** ** What a tick adds to the trace *)

Lemma flat_map_bc_events {A} (f : Event -> list A) c ok cs :
  (forall c' cb b, f (BroadcastDone c' cb b) = []) ->
  flat_map f (bc_events c ok cs) = [].
Proof.
  intros Hf. unfold bc_events. destruct (cs !! c) as [cell|]; [|reflexivity].
  destruct (bc_remaining cell) as [|[|n]]; try reflexivity.
  cbn. now rewrite Hf.
Qed.

Lemma flat_map_test_errors {A} (f : Event -> list A) t l :
  f LogError = [] -> flat_map f (test_errors t l) = [].
Proof.
  intros Hf. unfold test_errors. induction l as [|r l IH]; [reflexivity|].
  cbn [flat_map]. rewrite flat_map_app, IH, app_nil_r.
  destruct (reported_ready t r); [|reflexivity].
  destruct (test_success (t (req r))), (count_success (t (req r)));
    cbn; rewrite ?Hf; reflexivity.
Qed.

Lemma flat_map_warning_events {A} (f : Event -> list A) l :
  (forall n, f (LogWarning n) = []) -> flat_map f (warning_events l) = [].
Proof.
  intros Hf. unfold warning_events.
  destruct (100 <? length l)%nat; [|reflexivity]. cbn. now rewrite Hf.
Qed.

(** What an observation that ignores the log and the handlers sees of one
    callback. *)
Lemma flat_map_invoke `{RemoteIdType} {A} (f : Event -> list A) rank r st :
  f LogError = [] ->
  (forall h b, f (received_from_parent h b) = []) ->
  (forall h b s, f (received_from_child h b s) = []) ->
  flat_map f (trace (invoke rank r st))
  = flat_map f (trace st) ++ f (Completed r)
    ++ match callback r with
       | CbReceived => f (MPI_Irecv (to_int (buffer st)) (next_request st))
       | CbSent cb => f (Sent cb (ok r))
       | CbBroadcast c => flat_map f (bc_events c (ok r) (cells st))
       end.
Proof.
  intros Hl Hp Hc. rewrite invoke_trace, flat_map_app. cbn [flat_map].
  destruct (callback r) as [|cb|c].
  - rewrite flat_map_app, flat_map_dispatch by assumption.
    cbn. now rewrite app_nil_r.
  - cbn. now rewrite app_nil_r.
  - reflexivity.
Qed.

(** What such an observation sees of one tick, when it also ignores the
    warning. *)
Lemma flat_map_poll_one `{RemoteIdType} {A} (f : Event -> list A) rank t st :
  f LogError = [] -> (forall n, f (LogWarning n) = []) ->
  flat_map f (trace (poll_one rank t st))
  = flat_map f
      (trace (fold_left (fun s r => invoke rank r s) (found_ready t (ledger st))
                (set_requests_to_process
                   (found_ready t (ledger st) ++ still_pending t (ledger st))
                   (emits (test_errors t (ledger st))
                      (set_requests []
                         (set_requests_to_process (ledger st) st))))))
    ++ f Post.
Proof.
  intros Hl Hw. rewrite poll_one_eq.
  cbn [trace emits set_requests_to_process].
  rewrite !flat_map_app, flat_map_warning_events by assumption.
  cbn. now rewrite app_nil_r.
Qed.

Lemma sent_calls_callbacks `{RemoteIdType} rank l st :
  sent_calls (trace (fold_left (fun s r => invoke rank r s) l st))
  = sent_calls (trace st) ++ completed_sends l.
Proof.
  revert st. induction l as [|r l IH]; intros st.
  - cbn. now rewrite app_nil_r.
  - cbn [fold_left]. rewrite IH. unfold sent_calls at 1.
    rewrite flat_map_invoke by reflexivity. fold (sent_calls (trace st)).
    rewrite <- app_assoc. f_equal. unfold completed_sends. cbn [flat_map].
    f_equal. destruct (callback r) as [|cb|c]; try reflexivity.
    now rewrite flat_map_bc_events.
Qed.

Lemma completed_sends_found_ready t l :
  completed_sends (found_ready t l) = sent_results t l.
Proof.
  unfold completed_sends, found_ready, sent_results.
  induction l as [|r l IH]; [reflexivity|].
  cbn [List.filter flat_map]. destruct (reported_ready t r); [|exact IH].
  cbn [map flat_map]. now rewrite IH.
Qed.

(** X6.  In one tick the callbacks given to [async_send_to_parent] are
    invoked for exactly the sends the transport reports complete, in
    ledger order, and the [ok] they get is whether [MPI_Get_count]
    succeeded: what [MPI_Test] returned is logged but does not reach the
    callback. *)
Theorem send_callbacks_of_a_tick `{RemoteIdType} (rank : Z) (t : Transport)
    (st : State) :
  sent_calls (trace (poll_one rank t st))
  = sent_calls (trace st) ++ sent_results t (ledger st).
Proof.
  unfold sent_calls at 1. rewrite flat_map_poll_one by reflexivity.
  fold (sent_calls
          (trace (fold_left (fun s r => invoke rank r s)
                    (found_ready t (ledger st))
                    (set_requests_to_process
                       (found_ready t (ledger st) ++ still_pending t (ledger st))
                       (emits (test_errors t (ledger st))
                          (set_requests []
                             (set_requests_to_process (ledger st) st))))))).
  rewrite sent_calls_callbacks, completed_sends_found_ready.
  cbn [trace emits set_requests_to_process set_requests].
  unfold sent_calls at 1.
  rewrite flat_map_app, flat_map_test_errors by reflexivity.
  cbn. now rewrite !app_nil_r.
Qed.

(** ** Submission *)

(** X7.  Submitting never touches the working set of the poller: every
    call but [poll_one] leaves [requests_to_process] as it is and only
    appends to the staging area, behind what is staged already. *)
Theorem submission_spares_working_set `{RemoteIdType} (rank nodes : Z)
    (st : State) (c : Call) :
  is_poll_one c = false ->
  requests_to_process (step rank nodes st c) = requests_to_process st
  /\ exists new, requests (step rank nodes st c) = requests st ++ new.
Proof.
  intros Hc. destruct c as [m|m cb|m cb|h|t]; try discriminate Hc; cbn [step].
  - split; [reflexivity|]. eexists. reflexivity.
  - split; [reflexivity|]. eexists. reflexivity.
  - rewrite async_send_to_children_eq. cbn zeta.
    split; [reflexivity|]. eexists. reflexivity.
  - split; [reflexivity|]. exists []. cbn. now rewrite app_nil_r.
Qed.

Lemma submission_spares_working_set_witness :
  let st := poll_one (R := RemoteId_size_t) 0 (fun _ => not_yet)
              (async_send_to_parent (R := RemoteId_size_t) 0 4 1%nat init) in
  requests_to_process
    (step (R := RemoteId_size_t) 0 3 st (do_async_send_to_children 4 2%nat))
  = requests_to_process st
  /\ length (requests_to_process st) = 1%nat.
Proof.
  cbv zeta. split; [|reflexivity].
  apply (submission_spares_working_set (H := RemoteId_size_t) 0 3).
  reflexivity.
Defined.

Lemma step_handlers `{RemoteIdType} rank nodes st c :
  handlers (step rank nodes st c) = handlers st ++ registered [c].
Proof.
  destruct c as [m|m cb|m cb|h|t]; cbn [step].
  - cbn. now rewrite app_nil_r.
  - cbn. now rewrite app_nil_r.
  - rewrite async_send_to_children_eq. cbn. now rewrite app_nil_r.
  - reflexivity.
  - destruct (poll_one_effect rank t st) as (_ & _ & _ & H4 & _).
    cbn zeta in H4. rewrite H4. cbn. now rewrite app_nil_r.
Qed.

(** X8.  Handlers are only ever added, at the end: after any calls the
    handler list is the former list followed by the handlers registered
    since, in the order of registration.  No call removes or reorders a
    handler. *)
Theorem handlers_are_registration_order `{RemoteIdType} (rank nodes : Z)
    (st : State) (cs : list Call) :
  handlers (run rank nodes st cs) = handlers st ++ registered cs.
Proof.
  revert st. induction cs as [|c cs IH]; intros st.
  - cbn. now rewrite app_nil_r.
  - unfold run. cbn [fold_left]. fold (run rank nodes (step rank nodes st c) cs).
    rewrite IH, step_handlers, <- app_assoc. f_equal.
    unfold registered. cbn [flat_map]. now rewrite app_nil_r.
Qed.

Lemma step_outstanding_set `{RemoteIdType} rank nodes st c :
  outstanding_receives (step rank nodes st c)
  = (outstanding_receives st + if is_set_buffer_size c then 1 else 0)%nat.
Proof.
  destruct (is_set_buffer_size c) eqn:E.
  - destruct c as [m|m cb|m cb|h|t]; try discriminate E. cbn [step].
    unfold outstanding_receives, ledger. cbn.
    rewrite !List.filter_app, !length_app. cbn. lia.
  - rewrite step_outstanding by assumption. lia.
Qed.

(** X9.  The number of receives in the ledger is the number of
    [set_buffer_size] calls made so far: each such call posts one more
    receive on the buffer (a second call leaves two), and no other call
    changes their number. *)
Theorem receives_count_buffer_size_calls `{RemoteIdType} (rank nodes : Z)
    (st : State) (cs : list Call) :
  outstanding_receives (run rank nodes st cs)
  = (outstanding_receives st
     + length (List.filter is_set_buffer_size cs))%nat.
Proof.
  revert st. induction cs as [|c cs IH]; intros st.
  - cbn. lia.
  - unfold run. cbn [fold_left]. fold (run rank nodes (step rank nodes st c) cs).
    rewrite IH, step_outstanding_set. cbn [List.filter].
    destruct (is_set_buffer_size c); cbn [length]; lia.
Qed.

(** ** What the poller does not do *)

(** An observation that ignores completions, receives, callbacks and the
    log sees nothing of the callback loop. *)
Lemma flat_map_callbacks_silent `{RemoteIdType} {A} (f : Event -> list A)
    rank l st :
  f LogError = [] ->
  (forall h b, f (received_from_parent h b) = []) ->
  (forall h b s, f (received_from_child h b s) = []) ->
  (forall r, f (Completed r) = []) ->
  (forall n h, f (MPI_Irecv n h) = []) ->
  (forall cb b, f (Sent cb b) = []) ->
  (forall c cb b, f (BroadcastDone c cb b) = []) ->
  flat_map f (trace (fold_left (fun s r => invoke rank r s) l st))
  = flat_map f (trace st).
Proof.
  intros Hl Hp Hc Hd Hr Hs Hb. revert st.
  induction l as [|r l IH]; intros st; [reflexivity|].
  cbn [fold_left]. rewrite IH, flat_map_invoke by assumption.
  rewrite Hd. destruct (callback r) as [|cb|c].
  - now rewrite Hr, !app_nil_r.
  - now rewrite Hs, !app_nil_r.
  - now rewrite flat_map_bc_events, !app_nil_r.
Qed.

Lemma posts_flat_map tr :
  posts tr
  = length (flat_map (fun e => match e with Post => [tt] | _ => [] end) tr).
Proof.
  unfold posts. induction tr as [|e tr IH]; [reflexivity|].
  cbn. destruct e; cbn; now rewrite IH.
Qed.

Lemma posts_app tr tr' : posts (tr ++ tr') = (posts tr + posts tr')%nat.
Proof. unfold posts. now rewrite List.filter_app, length_app. Qed.

Lemma isend_events_no_post size h ids : posts (isend_events size h ids) = 0%nat.
Proof. revert h. induction ids as [|i ids IH]; intros h; [reflexivity|]. apply IH. Qed.

Lemma poll_one_posts `{RemoteIdType} rank t st :
  posts (trace (poll_one rank t st)) = S (posts (trace st)).
Proof.
  rewrite !posts_flat_map, flat_map_poll_one by reflexivity.
  rewrite flat_map_callbacks_silent by reflexivity.
  cbn [trace emits set_requests_to_process set_requests].
  rewrite flat_map_app, flat_map_test_errors by reflexivity.
  rewrite app_nil_r, length_app. cbn. lia.
Qed.

Lemma step_posts `{RemoteIdType} rank nodes st c :
  posts (trace (step rank nodes st c))
  = (posts (trace st) + if is_poll_one c then 1 else 0)%nat.
Proof.
  destruct c as [m|m cb|m cb|h|t]; cbn [step is_poll_one].
  - change (trace (set_buffer_size m st))
      with (trace st ++ [MPI_Irecv (to_int m) (next_request st)]).
    rewrite posts_app. reflexivity.
  - change (trace (async_send_to_parent rank m cb st))
      with (trace st ++ [MPI_Isend (to_int m) (parent rank) MSG_TAG (next_request st)]).
    rewrite posts_app. reflexivity.
  - rewrite async_send_to_children_eq. cbn [trace].
    rewrite !posts_app, isend_events_no_post.
    now destruct (children rank nodes).
  - change (trace (register_receive_handler h st)) with (trace st). lia.
  - rewrite poll_one_posts. lia.
Qed.

(** X10.  The client is posted to the io_service once by the constructor
    and once more by every tick, as the last thing the tick does; no
    other call posts it.  So exactly one [poll_one] is pending after the
    constructor and after every tick. *)
Theorem poll_one_reposts_itself_once `{RemoteIdType} (rank nodes : Z)
    (cs : list Call) (t : Transport) (st : State) :
  posts (trace (run rank nodes init cs))
  = S (length (List.filter is_poll_one cs))
  /\ last (trace (poll_one rank t st)) = Some Post.
Proof.
  split.
  - assert (Hrun : forall s,
               posts (trace (run rank nodes s cs))
               = (posts (trace s) + length (List.filter is_poll_one cs))%nat).
    { induction cs as [|c cs IH]; intros s.
      - cbn. lia.
      - unfold run. cbn [fold_left].
        fold (run rank nodes (step rank nodes s c) cs).
        rewrite IH, step_posts. cbn [List.filter].
        destruct (is_poll_one c); cbn [length]; lia. }
    rewrite Hrun. reflexivity.
  - rewrite poll_one_eq. cbn [trace emits].
    rewrite app_assoc. apply last_snoc.
Qed.

Lemma irecv_capacities_app tr tr' :
  irecv_capacities (tr ++ tr') = irecv_capacities tr ++ irecv_capacities tr'.
Proof. apply flat_map_app. Qed.

Lemma callbacks_capacities `{RemoteIdType} rank l st :
  irecv_capacities (trace (fold_left (fun s r => invoke rank r s) l st))
  = irecv_capacities (trace st) ++ repeat (to_int (buffer st)) (receives_in l).
Proof.
  revert st. induction l as [|r l IH]; intros st.
  - cbn. now rewrite app_nil_r.
  - cbn [fold_left]. rewrite IH, invoke_buffer.
    unfold irecv_capacities at 1. rewrite flat_map_invoke by reflexivity.
    fold (irecv_capacities (trace st)).
    rewrite (receives_in_cons r l), repeat_app, <- !app_assoc.
    f_equal. cbn [app]. f_equal.
    unfold receives_in, is_receive. cbn [List.filter].
    destruct (callback r) as [|cb|c]; try reflexivity.
    now rewrite flat_map_bc_events.
Qed.

Lemma poll_one_capacities `{RemoteIdType} rank t st :
  irecv_capacities (trace (poll_one rank t st))
  = irecv_capacities (trace st)
    ++ repeat (to_int (buffer st)) (receives_in (found_ready t (ledger st))).
Proof.
  unfold irecv_capacities at 1. rewrite flat_map_poll_one by reflexivity.
  fold (irecv_capacities
          (trace (fold_left (fun s r => invoke rank r s)
                    (found_ready t (ledger st))
                    (set_requests_to_process
                       (found_ready t (ledger st) ++ still_pending t (ledger st))
                       (emits (test_errors t (ledger st))
                          (set_requests []
                             (set_requests_to_process (ledger st) st))))))).
  rewrite callbacks_capacities.
  cbn [trace buffer emits set_requests_to_process set_requests].
  rewrite irecv_capacities_app. unfold irecv_capacities at 2.
  rewrite flat_map_test_errors by reflexivity.
  cbn. now rewrite !app_nil_r.
Qed.

Lemma isend_events_no_capacity size h ids :
  irecv_capacities (isend_events size h ids) = [].
Proof. revert h. induction ids as [|i ids IH]; intros h; [reflexivity|]. apply IH. Qed.

Lemma step_capacities `{RemoteIdType} rank nodes st c :
  is_set_buffer_size c = false ->
  buffer (step rank nodes st c) = buffer st
  /\ exists k, irecv_capacities (trace (step rank nodes st c))
               = irecv_capacities (trace st) ++ repeat (to_int (buffer st)) k.
Proof.
  intros Hc. destruct c as [m|m cb|m cb|h|t]; try discriminate Hc; cbn [step].
  - split; [reflexivity|]. exists 0%nat. cbn.
    rewrite irecv_capacities_app. reflexivity.
  - rewrite async_send_to_children_eq. cbn zeta. split; [reflexivity|].
    exists 0%nat. cbn [trace repeat].
    rewrite !irecv_capacities_app, isend_events_no_capacity.
    now destruct (children rank nodes).
  - split; [reflexivity|]. exists 0%nat. cbn. now rewrite app_nil_r.
  - split.
    + now destruct (poll_one_effect rank t st) as (_ & _ & _ & _ & H5 & _).
    + eexists. apply poll_one_capacities.
Qed.

(** X11.  After [set_buffer_size n], and as long as it is not called
    again, every receive is posted with the capacity [n] converted to
    the [int] count of [MPI_Irecv]: the one that [set_buffer_size] posts
    and every one that replaces a completed receive.  For [n] up to
    [INT_MAX] the conversion leaves [n] as it is. *)
Theorem receives_use_the_set_capacity `{RemoteIdType} (rank nodes n : Z)
    (st : State) (cs : list Call) :
  forallb (fun c => negb (is_set_buffer_size c)) cs = true ->
  (exists k,
      irecv_capacities (trace (run rank nodes (set_buffer_size n st) cs))
      = irecv_capacities (trace st) ++ repeat (to_int n) (S k))
  /\ (0 <= n <= INT_MAX -> to_int n = n).
Proof.
  intros Hcs. split.
  2:{ intros Hn. unfold to_int, INT_MAX in *.
      assert (H31 : 2 ^ 31 = 2147483648) by reflexivity.
      assert (H32 : 2 ^ 32 = 4294967296) by reflexivity.
      rewrite Z.mod_small; lia. }
  assert (Hrun : forall s,
             buffer (run rank nodes s cs) = buffer s
             /\ exists k, irecv_capacities (trace (run rank nodes s cs))
                          = irecv_capacities (trace s)
                            ++ repeat (to_int (buffer s)) k).
  { induction cs as [|c cs IH]; intros s.
    - split; [reflexivity|]. exists 0%nat. cbn. now rewrite app_nil_r.
    - cbn in Hcs. apply andb_prop in Hcs. destruct Hcs as [Hc Hcs].
      apply negb_true_iff in Hc.
      unfold run. cbn [fold_left].
      fold (run rank nodes (step rank nodes s c) cs).
      destruct (step_capacities rank nodes s c Hc) as (Hb & k1 & Hk1).
      destruct (IH Hcs (step rank nodes s c)) as (Hb' & k2 & Hk2).
      split; [congruence|]. exists (k1 + k2)%nat.
      rewrite Hk2, Hk1, Hb, repeat_app, app_assoc. reflexivity. }
  destruct (Hrun (set_buffer_size n st)) as (_ & k & Hk).
  exists k. rewrite Hk.
  change (trace (set_buffer_size n st))
    with (trace st ++ [MPI_Irecv (to_int n) (next_request st)]).
  change (buffer (set_buffer_size n st)) with n.
  rewrite irecv_capacities_app, <- app_assoc. reflexivity.
Qed.

Lemma receives_use_the_set_capacity_witness :
  (exists k,
      irecv_capacities
        (trace (run (R := RemoteId_size_t) 0 1 (set_buffer_size 64 init)
                  [do_poll_one (fun _ => complete true 0 4);
                   do_poll_one (fun _ => complete false 0 0)]))
      = irecv_capacities (trace init) ++ repeat (to_int 64) (S k))
  /\ (0 <= 64 <= INT_MAX -> to_int 64 = 64).
Proof.
  apply (receives_use_the_set_capacity (H := RemoteId_size_t) 0 1 64 init).
  reflexivity.
Defined.

Lemma isend_dests_app tr tr' :
  isend_dests (tr ++ tr') = isend_dests tr ++ isend_dests tr'.
Proof. apply flat_map_app. Qed.

Lemma isend_dests_events size h ids : isend_dests (isend_events size h ids) = ids.
Proof.
  revert h. induction ids as [|i ids IH]; intros h; [reflexivity|].
  cbn. f_equal. apply IH.
Qed.

Lemma async_send_to_children_dests `{RemoteIdType} rank nodes size cb st :
  isend_dests (trace (async_send_to_children rank nodes size cb st))
  = isend_dests (trace st) ++ children rank nodes.
Proof.
  rewrite async_send_to_children_eq. cbn [trace].
  rewrite !isend_dests_app, isend_dests_events.
  destruct (children rank nodes); cbn; now rewrite app_nil_r.
Qed.

Lemma poll_one_dests `{RemoteIdType} rank t st :
  isend_dests (trace (poll_one rank t st)) = isend_dests (trace st).
Proof.
  unfold isend_dests. rewrite flat_map_poll_one by reflexivity.
  rewrite flat_map_callbacks_silent by reflexivity.
  cbn [trace emits set_requests_to_process set_requests].
  rewrite flat_map_app, flat_map_test_errors by reflexivity.
  cbn. now rewrite !app_nil_r.
Qed.

(** X12.  [async_send_to_parent] posts one send, to [parent()];
    [async_send_to_children] posts one send per child, in the order of
    [children()], and none on a leaf; and nothing else ever sends: every
    send the client has posted went to its parent or to one of its
    children. *)
Theorem sends_go_to_parent_and_children `{RemoteIdType} (rank nodes : Z) :
  (forall size cb st,
      isend_dests (trace (async_send_to_parent rank size cb st))
      = isend_dests (trace st) ++ [parent rank])
  /\ (forall size cb st,
         isend_dests (trace (async_send_to_children rank nodes size cb st))
         = isend_dests (trace st) ++ children rank nodes)
  /\ (forall cs,
         Forall (fun d => d = parent rank \/ In d (children rank nodes))
           (isend_dests (trace (run rank nodes init cs)))).
Proof.
  split; [|split].
  - intros size cb st.
    change (trace (async_send_to_parent rank size cb st))
      with (trace st ++ [MPI_Isend (to_int size) (parent rank) MSG_TAG (next_request st)]).
    now rewrite isend_dests_app.
  - intros. apply async_send_to_children_dests.
  - intros cs.
    assert (Hrun : forall st,
               Forall (fun d => d = parent rank \/ In d (children rank nodes))
                 (isend_dests (trace st)) ->
               Forall (fun d => d = parent rank \/ In d (children rank nodes))
                 (isend_dests (trace (run rank nodes st cs)))).
    { induction cs as [|c cs IH]; intros st Hst; [exact Hst|].
      unfold run. cbn [fold_left]. apply IH.
      destruct c as [m|m cb|m cb|h|t]; cbn [step].
      - change (trace (set_buffer_size m st))
          with (trace st ++ [MPI_Irecv (to_int m) (next_request st)]).
        rewrite isend_dests_app. cbn. now rewrite app_nil_r.
      - change (trace (async_send_to_parent rank m cb st))
          with (trace st
                ++ [MPI_Isend (to_int m) (parent rank) MSG_TAG (next_request st)]).
        rewrite isend_dests_app. apply Forall_app. split; [exact Hst|].
        repeat constructor.
      - rewrite async_send_to_children_dests. apply Forall_app.
        split; [exact Hst|]. apply Forall_forall. intros d Hd. right.
        now apply list_elem_of_In.
      - exact Hst.
      - now rewrite poll_one_dests. }
    apply Hrun. constructor.
Qed.

(** ** A tick with nothing to do *)

Lemma test_errors_none t l :
  (forall r, In r l -> reported_ready t r = false) -> test_errors t l = [].
Proof.
  intros Hall. unfold test_errors. induction l as [|r l IH]; [reflexivity|].
  cbn [flat_map]. rewrite (Hall r) by now left.
  apply IH. intros r' Hr'. apply Hall. now right.
Qed.

(** X13.  A tick in which the transport reports nothing complete invokes
    no callback and changes no entry: it moves the staged entries behind
    the working set, in their order, logs the warning if more than 100
    entries are pending, and posts itself. *)
Theorem idle_tick `{RemoteIdType} (rank : Z) (t : Transport) (st : State) :
  (forall r, In r (ledger st) -> reported_ready t r = false) ->
  poll_one rank t st
  = emits (warning_events (ledger st) ++ [Post])
      (set_requests [] (set_requests_to_process (ledger st) st)).
Proof.
  intros Hnone. rewrite poll_one_eq.
  rewrite found_ready_none, still_pending_all, test_errors_none by assumption.
  cbn [fold_left app]. rewrite emits_nil.
  destruct st; reflexivity.
Qed.

Lemma idle_tick_witness :
  let st := async_send_to_parent (R := RemoteId_size_t) 1 4 3%nat
              (set_buffer_size 16 init) in
  ledger (poll_one (R := RemoteId_size_t) 1 (fun _ => not_yet) st) = ledger st
  /\ completions (trace (poll_one (R := RemoteId_size_t) 1 (fun _ => not_yet) st))
     = [].
Proof.
  cbv zeta.
  rewrite (idle_tick (H := RemoteId_size_t) 1 (fun _ => not_yet)
             (async_send_to_parent (R := RemoteId_size_t) 1 4 3%nat
                (set_buffer_size 16 init)))
    by (intros r _; reflexivity).
  split; reflexivity.
Defined.

(** ** What the handlers see of a tick *)

Lemma handler_calls_app tr tr' :
  handler_calls (tr ++ tr') = handler_calls tr ++ handler_calls tr'.
Proof. apply List.filter_app. Qed.

Lemma handler_calls_dispatch `{RemoteIdType} rank ok size sender hs :
  handler_calls (dispatch_events rank ok size sender hs)
  = if ok then dispatch_events rank true size sender hs else [].
Proof.
  destruct ok; [|reflexivity]. unfold dispatch_events, handler_calls.
  destruct (wrapR sender =? parent rank);
    induction hs as [|h hs IH]; cbn; try reflexivity; now rewrite IH.
Qed.

Lemma handler_calls_bc_events c ok cs : handler_calls (bc_events c ok cs) = [].
Proof.
  unfold bc_events. destruct (cs !! c) as [cell|]; [|reflexivity].
  now destruct (bc_remaining cell) as [|[|n]].
Qed.

Lemma handler_calls_test_errors t l : handler_calls (test_errors t l) = [].
Proof.
  unfold test_errors. induction l as [|r l IH]; [reflexivity|].
  cbn [flat_map]. rewrite handler_calls_app, IH, app_nil_r.
  destruct (reported_ready t r); [|reflexivity].
  now destruct (test_success (t (req r))), (count_success (t (req r))).
Qed.

Lemma handler_calls_callbacks `{RemoteIdType} rank l st :
  handler_calls (trace (fold_left (fun s r => invoke rank r s) l st))
  = handler_calls (trace st) ++ deliveries rank (handlers st) l.
Proof.
  revert st. induction l as [|r l IH]; intros st.
  - cbn. now rewrite app_nil_r.
  - cbn [fold_left]. rewrite IH, invoke_handlers, invoke_trace.
    rewrite handler_calls_app, <- app_assoc. f_equal.
    unfold deliveries. cbn [flat_map]. f_equal.
    change (handler_calls (Completed r :: ?x)) with (handler_calls x).
    destruct (callback r) as [|cb|c].
    + rewrite handler_calls_app, handler_calls_dispatch. cbn.
      now rewrite app_nil_r.
    + reflexivity.
    + apply handler_calls_bc_events.
Qed.

(** X14.  The handler calls of a tick: for every receive the transport
    reports complete with [MPI_Get_count] successful, every handler that
    was registered before the tick is called once, in registration order,
    with the count and the source of the MPI status; receives come in
    ledger order, and nothing else calls a handler. *)
Theorem handler_calls_of_a_tick `{RemoteIdType} (rank : Z) (t : Transport)
    (st : State) :
  handler_calls (trace (poll_one rank t st))
  = handler_calls (trace st)
    ++ deliveries rank (handlers st) (found_ready t (ledger st)).
Proof.
  rewrite poll_one_eq. cbn [trace emits set_requests_to_process].
  rewrite handler_calls_app, handler_calls_callbacks.
  cbn [trace handlers emits set_requests_to_process set_requests].
  rewrite handler_calls_app, handler_calls_test_errors, app_nil_r.
  replace (handler_calls (warning_events (still_pending t (ledger st)) ++ [Post]))
    with (@nil Event).
  - now rewrite app_nil_r.
  - unfold warning_events.
    now destruct (100 <? length (still_pending t (ledger st)))%nat.
Qed.

(** ** The layout of MKLReLULayer *)

Lemma product_app l l' : product (l ++ l') = product l * product l'.
Proof.
  unfold product. induction l as [|x l IH]; cbn.
  - now destruct (fold_right Z.mul 1 l').
  - rewrite IH. lia.
Qed.

Lemma wrap_size_t_mul a b :
  wrap_size_t (wrap_size_t a * wrap_size_t b) = wrap_size_t (a * b).
Proof. unfold wrap_size_t. symmetry. apply Z.mul_mod. lia. Qed.

(** The loop, after its first [k] turns. *)
Lemma layout_loop shape k :
  (k <= length shape)%nat ->
  let '(sizes, strides) :=
    fold_left (layout_step shape (length shape)) (seq 0 k)
      (replicate (length shape) 0, replicate (length shape) 0) in
  length sizes = length shape /\ length strides = length shape
  /\ (forall i, (i < k)%nat ->
         sizes !! i = Some (wrap_size_t (default 0 (reverse shape !! i)))
         /\ strides !! i
            = Some (wrap_size_t (product (take i (reverse shape))))).
Proof.
  induction k as [|k IH]; intros Hk.
  - cbn. rewrite length_replicate. repeat split; intros; lia.
  - rewrite seq_S, fold_left_app. cbn [Nat.add fold_left].
    specialize (IH ltac:(lia)).
    destruct (fold_left (layout_step shape (length shape)) (seq 0 k)
                (replicate (length shape) 0, replicate (length shape) 0))
      as [sizes strides].
    destruct IH as (Hls & Hlt & IH).
    cbn [layout_step]. rewrite !length_insert.
    split; [exact Hls|]. split; [exact Hlt|].
    intros i Hi. destruct (Nat.eq_dec i k) as [->|Hne].
    + rewrite !list_lookup_insert_eq by lia.
      assert (Hrev : reverse shape !! k = shape !! (length shape - 1 - k)%nat).
      { rewrite reverse_lookup by lia. f_equal. lia. }
      split; [now rewrite Hrev|].
      destruct k as [|k]; [reflexivity|].
      cbn [Nat.eqb]. replace (S k - 1)%nat with k by lia.
      rewrite list_lookup_insert_ne by lia.
      destruct (IH k ltac:(lia)) as [Hs Ht]. rewrite Hs, Ht. cbn [default].
      unfold Datatypes.id.
      rewrite wrap_size_t_mul. do 2 f_equal.
      destruct (reverse shape !! k) as [x|] eqn:Ex.
      * rewrite (take_S_r _ _ x) by exact Ex.
        rewrite product_app. cbn. lia.
      * apply lookup_ge_None in Ex. rewrite length_reverse in Ex. lia.
    + rewrite !list_lookup_insert_ne by lia. apply IH. lia.
Qed.

Lemma user_layout_mod shape :
  user_layout shape
  = (wrap_size_t <$> reverse shape,
     (fun d => wrap_size_t (product (take d (reverse shape))))
       <$> seq 0 (length shape)).
Proof.
  unfold user_layout. cbv zeta.
  pose proof (layout_loop shape (length shape) (Nat.le_refl _)) as Hloop.
  destruct (fold_left (layout_step shape (length shape))
              (seq 0 (length shape))
              (replicate (length shape) 0, replicate (length shape) 0))
    as [sizes strides].
  destruct Hloop as (Hls & Hlt & Hall).
  f_equal; apply list_eq; intros i.
  - rewrite list_lookup_fmap.
    destruct (Nat.lt_ge_cases i (length shape)) as [Hi|Hi].
    + destruct (Hall i Hi) as [-> _].
      destruct (reverse shape !! i) as [x|] eqn:Ex; [reflexivity|].
      apply lookup_ge_None in Ex. rewrite length_reverse in Ex. lia.
    + rewrite !lookup_ge_None_2; [reflexivity| |lia].
      rewrite length_reverse. lia.
  - rewrite list_lookup_fmap.
    destruct (Nat.lt_ge_cases i (length shape)) as [Hi|Hi].
    + destruct (Hall i Hi) as [_ ->].
      rewrite lookup_seq_lt by lia. reflexivity.
    + rewrite !lookup_ge_None_2; [reflexivity| |lia].
      rewrite length_seq. lia.
Qed.

Lemma product_pos l : Forall (fun x => 1 <= x) l -> 1 <= product l.
Proof.
  induction 1 as [|x l Hx Hl IH]; cbn; [lia|].
  fold (product l). nia.
Qed.

Lemma product_reverse l : product (reverse l) = product l.
Proof.
  induction l as [|x l IH]; [reflexivity|].
  rewrite reverse_cons, product_app, IH. cbn. fold (product l). lia.
Qed.

Lemma product_take_le l d :
  Forall (fun x => 1 <= x) l -> 1 <= product (take d l) <= product l.
Proof.
  intros Hl. rewrite <- (take_drop d l) at 3. rewrite product_app.
  pose proof (product_pos (take d l) (Forall_take _ _ _ Hl)).
  pose proof (product_pos (drop d l) (Forall_drop _ _ _ Hl)).
  nia.
Qed.

Lemma product_elem l i x :
  Forall (fun x => 1 <= x) l -> l !! i = Some x -> 1 <= x <= product l.
Proof.
  intros Hl Hx.
  pose proof (product_take_le l (S i) Hl) as Hle.
  rewrite (take_S_r _ _ x Hx), product_app in Hle. cbn in Hle.
  pose proof (product_pos (take i l) (Forall_take _ _ _ Hl)).
  assert (1 <= x) by (eapply (proj1 (Forall_lookup _ _) Hl); eassumption).
  nia.
Qed.

(** X15.  For a blob whose dimensions are all at least 1 and whose element
    count fits [size_t], [MKLReLULayer::LayerSetUp] hands MKL the
    dimensions innermost first and the strides of the dense layout: the
    stride of a dimension is the product of the sizes of the dimensions
    inside it (1 for the innermost), and the outermost stride times the
    outermost size is the element count. *)
Theorem user_layout_is_dense (shape : list Z) :
  Forall (fun x => 1 <= x) shape -> product shape < 2 ^ 64 ->
  user_layout shape
  = (reverse shape,
     (fun d => product (take d (reverse shape))) <$> seq 0 (length shape))
  /\ (forall a b,
         snd (user_layout shape) !! (length shape - 1)%nat = Some a ->
         fst (user_layout shape) !! (length shape - 1)%nat = Some b ->
         a * b = product shape).
Proof.
  intros Hpos Hfit.
  assert (Hrev : Forall (fun x => 1 <= x) (reverse shape)).
  { now apply Forall_reverse. }
  assert (Hsmall : forall z, 1 <= z <= product shape -> wrap_size_t z = z).
  { intros z Hz. unfold wrap_size_t. apply Z.mod_small. lia. }
  assert (Heq : user_layout shape
                = (reverse shape,
                   (fun d => product (take d (reverse shape)))
                     <$> seq 0 (length shape))).
  { rewrite user_layout_mod. f_equal; apply list_eq; intros i.
    - rewrite list_lookup_fmap.
      destruct (reverse shape !! i) as [x|] eqn:Ex; [|reflexivity].
      cbn. f_equal. apply Hsmall.
      rewrite <- (product_reverse shape). eapply product_elem; eassumption.
    - rewrite !list_lookup_fmap.
      destruct (seq 0 (length shape) !! i) as [d|]; [|reflexivity].
      cbn. f_equal. apply Hsmall.
      rewrite <- (product_reverse shape). now apply product_take_le. }
  split; [exact Heq|].
  intros a b. rewrite Heq. cbn [fst snd]. intros Ha Hb.
  assert (Hlen : (length shape - 1 < length shape)%nat).
  { pose proof (lookup_lt_Some _ _ _ Hb) as Hlt.
    rewrite length_reverse in Hlt. clear -Hlt. lia. }
  assert (Hall : (length (reverse shape) <= S (length shape - 1))%nat).
  { rewrite length_reverse. clear -Hlen. lia. }
  assert (Hsplit : product (reverse shape)
                   = product (take (length shape - 1) (reverse shape)) * b).
  { rewrite <- (take_ge (reverse shape) (S (length shape - 1))) at 1
      by exact Hall.
    rewrite (take_S_r _ _ b Hb), product_app.
    change (product [b]) with (b * 1). ring. }
  rewrite list_lookup_fmap, lookup_seq_lt in Ha by exact Hlen.
  cbn [fmap option_fmap option_map Nat.add] in Ha. injection Ha as <-.
  now rewrite <- (product_reverse shape), Hsplit.
Qed.

Lemma user_layout_is_dense_witness :
  user_layout [2; 3; 224; 224] = ([224; 224; 3; 2], [1; 224; 50176; 150528]).
Proof.
  pose proof (user_layout_is_dense [2; 3; 224; 224]
                ltac:(repeat constructor; lia) ltac:(reflexivity))
    as [Heq _].
  rewrite Heq. reflexivity.
Defined.

(** ** The window of LRNLayer *)

Lemma to_int_small z : - 2 ^ 31 <= z < 2 ^ 31 -> to_int z = z.
Proof.
  intros Hz. unfold to_int.
  rewrite Z.mod_small; [lia|].
  change (2 ^ 32) with (2 ^ 31 + 2 ^ 31). lia.
Qed.

Lemma to_int_large z : 2 ^ 31 <= z < 2 ^ 32 -> to_int z = z - 2 ^ 32.
Proof.
  intros Hz. unfold to_int.
  replace (z + 2 ^ 31) with (z - 2 ^ 31 + 1 * 2 ^ 32) by lia.
  rewrite Z.mod_add by lia.
  rewrite Z.mod_small; [lia|].
  change (2 ^ 32) with (2 ^ 31 + 2 ^ 31) in *. lia.
Qed.

(** X16.  [LRNLayer::LayerSetUp] accepts a [local_size] exactly when it
    is odd and below [2^31]; even sizes and sizes that turn negative as
    [int] fail the check.  For an accepted size the window is centred:
    [size_ = 2 * pre_pad_ + 1], the [inverse_pre_pad] of the backward pass
    is [pre_pad_] again (for sizes below [INT_MAX]), and the [limit] of
    the forward pass is the smaller of [pre_pad_] and the last channel
    index. *)
Theorem lrn_window_is_centred (local_size : Z) :
  0 <= local_size < 2 ^ 32 ->
  (lrn_window local_size = None
   <-> Z.even local_size = true \/ 2 ^ 31 <= local_size)
  /\ (forall size_ pre_pad_,
         lrn_window local_size = Some (size_, pre_pad_) ->
         size_ = local_size /\ 0 <= pre_pad_ /\ size_ = 2 * pre_pad_ + 1
         /\ (size_ < INT_MAX -> inverse_pre_pad size_ = pre_pad_)
         /\ (forall channels_, 1 <= channels_ <= INT_MAX ->
                forward_limit pre_pad_ channels_
                = Z.min pre_pad_ (channels_ - 1))).
Proof.
  intros Hls. unfold lrn_window. cbv zeta.
  assert (H31 : 2 ^ 31 = 2147483648) by reflexivity.
  assert (H32 : 2 ^ 32 = 4294967296) by reflexivity.
  destruct (Z_lt_le_dec local_size (2 ^ 31)) as [Hlt|Hge].
  - rewrite (to_int_small local_size) by lia.
    rewrite Z.rem_mod_nonneg by lia.
    pose proof (Z.mod_pos_bound local_size 2 ltac:(lia)) as Hm.
    pose proof (Z.div_mod local_size 2 ltac:(lia)) as Hdm.
    rewrite Zeven_mod.
    destruct (Z.eqb_spec (local_size mod 2) 1) as [Hodd|Heven].
    + split.
      * split; [discriminate|].
        intros [He|Hbig]; [|lia].
        apply Z.eqb_eq in He. lia.
      * intros size_ pre_pad_ [= <- <-].
        rewrite to_int_small by lia.
        rewrite Z.quot_div_nonneg by lia.
        assert (Hq : (local_size - 1) / 2 = local_size / 2).
        { replace (local_size - 1) with (0 + (local_size / 2) * 2) by lia.
          now rewrite Z.div_add by lia. }
        rewrite Hq.
        assert (Hp : 0 <= local_size / 2) by (apply Z.div_pos; lia).
        repeat split; try lia.
        -- intros Hmax. unfold inverse_pre_pad, INT_MAX in *.
           rewrite (to_int_small (local_size + 1)) by lia.
           rewrite Z.quot_div_nonneg by lia.
           replace (local_size + 1) with (0 + (local_size / 2 + 1) * 2) by lia.
           rewrite Z.div_add by lia. change (0 / 2) with 0.
           rewrite to_int_small by lia. lia.
        -- intros channels_ Hc. unfold forward_limit, INT_MAX in *.
           rewrite to_int_small by lia.
           destruct (Z.ltb_spec (local_size / 2) (channels_ - 1)); lia.
    + split.
      * split; [intros _; left; apply Z.eqb_eq; lia | reflexivity].
      * intros size_ pre_pad_ [=].
  - rewrite (to_int_large local_size) by lia.
    assert (Hneg : Z.rem (local_size - 2 ^ 32) 2 <= 0).
    { apply Z.rem_nonpos; lia. }
    destruct (Z.eqb_spec (Z.rem (local_size - 2 ^ 32) 2) 1) as [E|_]; [lia|].
    split.
    + split; [intros _; right; lia | reflexivity].
    + intros size_ pre_pad_ [=].
Qed.

Lemma lrn_window_is_centred_witness :
  lrn_window 5 = Some (5, 2) /\ inverse_pre_pad 5 = 2
  /\ forward_limit 2 1 = 0.
Proof.
  pose proof (lrn_window_is_centred 5 ltac:(lia)) as [_ Hwin].
  destruct (Hwin 5 2 eq_refl) as (_ & _ & _ & Hinv & Hlim).
  split; [reflexivity|]. split.
  - apply Hinv. unfold INT_MAX. lia.
  - rewrite Hlim; [reflexivity | unfold INT_MAX; lia].
Defined.

(** ** The primitives of MKLReLULayer *)

Lemma relu_run_aborted cs : fold_left relu_step cs None = None.
Proof. induction cs as [|c cs IH]; [reflexivity | exact IH]. Qed.

Lemma created_forward_app tr tr' :
  created_forward (tr ++ tr') = created_forward tr ++ created_forward tr'.
Proof. apply flat_map_app. Qed.

Lemma created_backward_app tr tr' :
  created_backward (tr ++ tr') = created_backward tr ++ created_backward tr'.
Proof. apply flat_map_app. Qed.

Lemma null_executions_app tr tr' :
  null_executions (tr ++ tr') = null_executions tr ++ null_executions tr'.
Proof. apply flat_map_app. Qed.

Ltac relu_trace_simpl :=
  cbn [relu_trace reluFwd_ reluBwd_ relu_emit];
  rewrite ?created_forward_app, ?created_backward_app, ?null_executions_app;
  cbn [created_forward created_backward null_executions flat_map app negb];
  rewrite ?app_nil_r.

(** Once both primitives exist, no pass creates one or executes a [NULL]
    one. *)
Lemma relu_run_created cs s s' :
  reluFwd_ s = true -> reluBwd_ s = true ->
  fold_left relu_step cs (Some s) = Some s' ->
  reluFwd_ s' = true /\ reluBwd_ s' = true
  /\ created_forward (relu_trace s') = created_forward (relu_trace s)
  /\ created_backward (relu_trace s') = created_backward (relu_trace s)
  /\ null_executions (relu_trace s') = null_executions (relu_trace s).
Proof.
  revert s. induction cs as [|c cs IH]; intros s Hf Hb Hrun.
  - injection Hrun as <-. repeat split; assumption.
  - cbn [fold_left relu_step] in Hrun.
    destruct c as [p|d p].
    + unfold relu_Forward_cpu in Hrun. rewrite Hf in Hrun.
      replace (if prv_data p then Some s else Some s) with (Some s) in Hrun
        by (now destruct (prv_data p)).
      destruct (execute_ok p); [|now rewrite relu_run_aborted in Hrun].
      apply IH in Hrun.
      * destruct Hrun as (H1 & H2 & H3 & H4 & H5).
        rewrite H3, H4, H5.
        destruct (conversion_needed p); relu_trace_simpl;
          rewrite Hf; relu_trace_simpl; repeat split; assumption.
      * now destruct (conversion_needed p).
      * now destruct (conversion_needed p).
    + unfold relu_Backward_cpu in Hrun. destruct d.
      * destruct (execute_ok p); [|now rewrite relu_run_aborted in Hrun].
        apply IH in Hrun.
        -- destruct Hrun as (H1 & H2 & H3 & H4 & H5).
           rewrite H3, H4, H5.
           destruct (conversion_needed p); relu_trace_simpl;
             rewrite Hb; relu_trace_simpl; repeat split; assumption.
        -- now destruct (conversion_needed p).
        -- now destruct (conversion_needed p).
      * now apply IH in Hrun.
Qed.

(** Before the first forward pass no primitive exists; that pass creates
    both. *)
Lemma relu_run_fresh cs s s' :
  reluFwd_ s = false -> reluBwd_ s = false ->
  fold_left relu_step cs (Some s) = Some s' ->
  reluBwd_ s' = reluFwd_ s'
  /\ (reluFwd_ s' = true <-> first_forward_layout cs <> [])
  /\ created_forward (relu_trace s')
     = created_forward (relu_trace s) ++ first_forward_layout cs
  /\ created_backward (relu_trace s')
     = created_backward (relu_trace s) ++ first_forward_layout cs
  /\ null_executions (relu_trace s')
     = null_executions (relu_trace s) ++ backward_before_forward cs.
Proof.
  revert s. induction cs as [|c cs IH]; intros s Hf Hb Hrun.
  - injection Hrun as <-. cbn. rewrite !app_nil_r, Hf, Hb.
    repeat split; try discriminate. intros []. reflexivity.
  - cbn [fold_left relu_step] in Hrun. destruct c as [p|d p].
    + change (first_forward_layout (do_Forward_cpu p :: cs))
        with [if prv_data p then layout_int else layout_usr].
      cbn [backward_before_forward]. rewrite app_nil_r.
      destruct (relu_Forward_cpu p s) as [s1|] eqn:E;
        [|now rewrite relu_run_aborted in Hrun].
      assert (H1 : reluFwd_ s1 = true /\ reluBwd_ s1 = true
                   /\ created_forward (relu_trace s1)
                      = created_forward (relu_trace s)
                        ++ [if prv_data p then layout_int else layout_usr]
                   /\ created_backward (relu_trace s1)
                      = created_backward (relu_trace s)
                        ++ [if prv_data p then layout_int else layout_usr]
                   /\ null_executions (relu_trace s1)
                      = null_executions (relu_trace s)).
      { unfold relu_Forward_cpu, relu_create in E. rewrite Hf in E.
        destruct (prv_data p), (descr_is_mkl2017 p), (descr_not_null p),
          (create_forward_ok p), (create_backward_ok p),
          (conversion_needed p), (execute_ok p);
          try discriminate E; injection E as <-;
          relu_trace_simpl; repeat split; reflexivity. }
      destruct H1 as (Hf1 & Hb1 & Hc1 & Hc2 & Hn1).
      destruct (relu_run_created cs s1 s' Hf1 Hb1 Hrun)
        as (Hf' & Hb' & Hc1' & Hc2' & Hn').
      rewrite Hf', Hb', Hc1', Hc2', Hn', Hc1, Hc2, Hn1.
      repeat split; try reflexivity. discriminate.
    + change (first_forward_layout (do_Backward_cpu d p :: cs))
        with (first_forward_layout cs).
      cbn [backward_before_forward].
      unfold relu_Backward_cpu in Hrun. destruct d.
      * destruct (execute_ok p); [|now rewrite relu_run_aborted in Hrun].
        apply IH in Hrun.
        -- destruct Hrun as (H1 & H2 & H3 & H4 & H5).
           rewrite H3, H4, H5.
           destruct (conversion_needed p); relu_trace_simpl;
             rewrite Hb; relu_trace_simpl; rewrite <- ?app_assoc;
             repeat split; try assumption; apply H2.
        -- now destruct (conversion_needed p).
        -- now destruct (conversion_needed p).
      * cbn [app]. now apply IH in Hrun.
Qed.

(** X17.  The primitives of [MKLReLULayer] are created lazily and once:
    in a run that does not end in a failed check, the first forward pass
    creates the forward and the backward primitive, for the internal
    layout of the bottom blob if it has private data and for the user
    layout otherwise, and no later pass creates a primitive again,
    whatever layout its input has. *)
Theorem relu_primitives_created_once (cs : list ReLUCall) (st : ReLUState) :
  relu_run cs = Some st ->
  created_forward (relu_trace st) = first_forward_layout cs
  /\ created_backward (relu_trace st) = first_forward_layout cs
  /\ reluBwd_ st = reluFwd_ st
  /\ (reluFwd_ st = true <-> first_forward_layout cs <> []).
Proof.
  intros Hrun. unfold relu_run in Hrun.
  destruct (relu_run_fresh cs relu_LayerSetUp st eq_refl eq_refl Hrun)
    as (H1 & H2 & H3 & H4 & _).
  repeat split; try assumption; apply H2.
Qed.

Lemma relu_primitives_created_once_witness :
  exists st,
    relu_run [do_Forward_cpu pass_on_cpu_data; do_Forward_cpu pass_on_prv_data;
              do_Backward_cpu true pass_on_prv_data] = Some st
    /\ created_forward (relu_trace st) = [layout_usr].
Proof.
  eexists. split; [reflexivity|].
  exact (proj1 (relu_primitives_created_once
                  [do_Forward_cpu pass_on_cpu_data;
                   do_Forward_cpu pass_on_prv_data;
                   do_Backward_cpu true pass_on_prv_data] _ eq_refl)).
Defined.

(** X18.  A forward pass never executes a [NULL] primitive.  A backward
    pass that propagates down does so exactly when no forward pass came
    before it: [Backward_cpu] creates nothing, so without an earlier
    forward pass it hands [dnnExecute] the [NULL] [reluBwd_]. *)
Theorem relu_null_executions (cs : list ReLUCall) (st : ReLUState) :
  relu_run cs = Some st ->
  null_executions (relu_trace st) = backward_before_forward cs.
Proof.
  intros Hrun. unfold relu_run in Hrun.
  now destruct (relu_run_fresh cs relu_LayerSetUp st eq_refl eq_refl Hrun)
    as (_ & _ & _ & _ & ->).
Qed.

Lemma relu_null_executions_witness :
  exists st,
    relu_run [do_Backward_cpu true pass_on_cpu_data;
              do_Forward_cpu pass_on_cpu_data;
              do_Backward_cpu true pass_on_cpu_data] = Some st
    /\ null_executions (relu_trace st) = [true].
Proof.
  eexists. split; [reflexivity|].
  exact (relu_null_executions
           [do_Backward_cpu true pass_on_cpu_data;
            do_Forward_cpu pass_on_cpu_data;
            do_Backward_cpu true pass_on_cpu_data] _ eq_refl).
Defined.
